(** * mcp-text-intelligence: the analysis engine of [server.py]

    A shallow embedding of the two tools of the server, [extract_outcomes]
    and [trim_context], and of the helpers they are built from, followed by
    the properties of the specification checked against them.

    Conventions of the embedding.
    - A Python [str] is a list of Unicode code points ([char := N]).
    - [re] patterns are values of [regex]; [rmatch] is a backtracking matcher
      with the priorities of Python's engine (leftmost alternative first,
      greedy repetition), and [scan] is the search loop shared by
      [re.finditer], [re.split] and [re.sub].
    - A call either returns a value or raises: [result A].
    - The relevance score is the exact quotient of two integers, a [Q]; the
      Python float is this quotient correctly rounded, and rounding is
      monotone and fixes 0 and 1, so the comparisons made by the code
      ([score > 0], the ordering by score) agree with those on [Q] for
      every goal of fewer than 2^53 words. Where the score is printed, in
      the reason of a chunk, the float itself is computed
      ([true_divide]). *)

From Stdlib Require Import NArith ZArith QArith Ascii String Lia.
From stdpp Require Import base list sorting gmap strings.

Local Open Scope N_scope.

(** ** Characters and the [str] methods used by the server *)

Definition char := N.
Definition str := list char.

(** An ASCII literal of the source, as code points. *)
Definition u (s : string) : str :=
  List.map N_of_ascii (list_ascii_of_string s).

(** [str.isspace] on one code point; the same table backs [\s] in a
    [str] pattern, [str.strip] and [str.split]. *)
Definition isspace (c : char) : bool :=
  ((9 <=? c) && (c <=? 13)) || ((28 <=? c) && (c <=? 32))
  || (c =? 133) || (c =? 160) || (c =? 5760)
  || ((8192 <=? c) && (c <=? 8202))
  || (c =? 8232) || (c =? 8233) || (c =? 8239) || (c =? 8287) || (c =? 12288).

Fixpoint lstrip (s : str) : str :=
  match s with
  | c :: s' => if isspace c then lstrip s' else s
  | [] => []
  end.

Definition rstrip (s : str) : str := rev (lstrip (rev s)).

(** [s.strip()] *)
Definition strip (s : str) : str := rstrip (lstrip s).

(** [s.split()]: maximal runs of non-whitespace; [cur] is the run being
    read, most recent character first. *)
Fixpoint split_ws (cur : str) (s : str) : list str :=
  match s with
  | [] => match cur with [] => [] | _ => [rev cur] end
  | c :: s' =>
      if isspace c
      then match cur with
           | [] => split_ws [] s'
           | _ => rev cur :: split_ws [] s'
           end
      else split_ws (c :: cur) s'
  end.

Definition split (s : str) : list str := split_ws [] s.

Definition is_upper_ascii (c : char) : bool := (65 <=? c) && (c <=? 90).
Definition is_lower_ascii (c : char) : bool := (97 <=? c) && (c <=? 122).

(** [str.lower] on one code point. The case table covers Basic Latin, the
    Latin-1 Supplement and the three letters outside them whose lowercase
    lies inside (U+0130, U+212A, U+212B); every other code point is left
    as it is. *)
Definition lower_char (c : char) : str :=
  if is_upper_ascii c then [c + 32]
  else if (192 <=? c) && (c <=? 222) && negb (c =? 215) then [c + 32]
  else if c =? 304 then [105; 775]
  else if c =? 8490 then [107]
  else if c =? 8491 then [229]
  else [c].

(** [s.lower()] *)
Definition lower (s : str) : str := flat_map lower_char s.

(** ** Regular expressions *)

Record flags := { ignorecase : bool; multiline : bool }.

Definition NOFLAGS := {| ignorecase := false; multiline := false |}.
Definition MULTILINE := {| ignorecase := false; multiline := true |}.
Definition IGNORECASE_MULTILINE := {| ignorecase := true; multiline := true |}.

(** A character set: [[abc]], [[^abc]] or [\s]. *)
Inductive cset :=
| Chars (cs : list char)
| NotChars (cs : list char)
| Space.

Inductive regex :=
| Eps
| Lit (p : char)
| Cls (cs : cset)
| Bol                         (* ^ *)
| Behind (cs : cset)          (* (?<=[...]) *)
| Cat (r1 r2 : regex)
| Alt (r1 r2 : regex)
| Opt (r : regex)             (* r? *)
| Star (r : regex)            (* r* *)
| Plus (r : regex).           (* r+ *)

(** The simple lowercase the engine compares with under IGNORECASE, on the
    code points whose lowercase is an ASCII letter. *)
Definition sre_lower (c : char) : char :=
  if is_upper_ascii c then c + 32
  else if c =? 304 then 105
  else if c =? 8490 then 107
  else c.

(** Does text character [c] match the pattern literal [p]? Under IGNORECASE
    an ASCII letter matches every code point with the same lowercase, and
    [i] and [s] also match their equivalents U+0131 and U+017F. The
    patterns compiled with IGNORECASE are ASCII. *)
Definition lit_matches (f : flags) (p c : char) : bool :=
  if ignorecase f && (is_upper_ascii p || is_lower_ascii p)
  then let lo := sre_lower p in
       (sre_lower c =? lo)
       || ((lo =? 105) && (c =? 305))
       || ((lo =? 115) && (c =? 383))
  else c =? p.

Definition cset_matches (f : flags) (cs : cset) (c : char) : bool :=
  match cs with
  | Chars l => existsb (fun p => lit_matches f p c) l
  | NotChars l => negb (existsb (fun p => lit_matches f p c) l)
  | Space => isspace c
  end.

(** [^]: the start of the text, and under MULTILINE also after a newline. *)
Definition at_bol (f : flags) (prev : option char) : bool :=
  match prev with
  | None => true
  | Some c => multiline f && (c =? 10)
  end.

(** A matcher reads the text from a position, given as the character
    before it and the characters from it on, and hands the position it
    stops at to its continuation; the answer is the text left after the
    whole match. [None] from the continuation makes it backtrack. *)
Definition kont := option char -> str -> option str.
Definition matcher := option char -> str -> kont -> option str.

(** Greedy repetition of [body]: one more round first, the rest of the
    pattern only if that fails. A round that consumes nothing is refused. *)
Fixpoint star_loop (body : matcher) (k : kont) (fuel : nat)
    (prev : option char) (s : str) : option str :=
  match fuel with
  | O => k prev s
  | S n =>
      match body prev s (fun p' s' =>
               if (length s' <? length s)%nat
               then star_loop body k n p' s' else None) with
      | Some rest => Some rest
      | None => k prev s
      end
  end.

Fixpoint rmatch (f : flags) (r : regex) (prev : option char) (s : str)
    (k : kont) : option str :=
  match r with
  | Eps => k prev s
  | Lit p =>
      match s with
      | c :: s' => if lit_matches f p c then k (Some c) s' else None
      | [] => None
      end
  | Cls cs =>
      match s with
      | c :: s' => if cset_matches f cs c then k (Some c) s' else None
      | [] => None
      end
  | Bol => if at_bol f prev then k prev s else None
  | Behind cs =>
      match prev with
      | Some c => if cset_matches f cs c then k prev s else None
      | None => None
      end
  | Cat r1 r2 => rmatch f r1 prev s (fun p' s' => rmatch f r2 p' s' k)
  | Alt r1 r2 =>
      match rmatch f r1 prev s k with
      | Some rest => Some rest
      | None => rmatch f r2 prev s k
      end
  | Opt r1 =>
      match rmatch f r1 prev s k with
      | Some rest => Some rest
      | None => k prev s
      end
  | Star r1 => star_loop (rmatch f r1) k (length s) prev s
  | Plus r1 =>
      rmatch f r1 prev s (fun p' s' =>
        star_loop (rmatch f r1) k (length s') p' s')
  end.

(** One match attempt at a position. With [must_advance] an empty match
    is not accepted (the engine then backtracks into the pattern). *)
Definition match_at (f : flags) (r : regex) (must_advance : bool)
    (prev : option char) (s : str) : option str :=
  rmatch f r prev s (fun _ rest =>
    if must_advance && (length rest =? length s)%nat then None
    else Some rest).

(** The text cut by the search loop: the characters no match covers and
    the matches, in text order. *)
Inductive piece :=
| Unmatched (c : char)
| Matched (m : str).

(** The search loop of [finditer], [split] and [sub]: leftmost match from
    the current position, next search from the end of the match; after an
    empty match the next one at the same position must be non-empty.
    [skip] counts the characters still covered by the last match. *)
Fixpoint scan (f : flags) (r : regex) (prev : option char) (s : str)
    (skip : nat) : list piece :=
  match s with
  | [] =>
      match skip with
      | S _ => []
      | O => match match_at f r false prev [] with
             | Some _ => [Matched []]
             | None => []
             end
      end
  | c :: s' =>
      match skip with
      | S n => scan f r (Some c) s' n
      | O =>
          match match_at f r false prev s with
          | None => Unmatched c :: scan f r (Some c) s' 0
          | Some rest =>
              match (length s - length rest)%nat with
              | S n => Matched (take (S n) s) :: scan f r (Some c) s' n
              | O =>
                  Matched [] ::
                  match match_at f r true prev s with
                  | Some rest2 =>
                      let n2 := (length s - length rest2)%nat in
                      Matched (take n2 s) :: scan f r (Some c) s' (n2 - 1)
                  | None => Unmatched c :: scan f r (Some c) s' 0
                  end
              end
          end
      end
  end.

(** [[m.group(0) for m in re.finditer(r, text, f)]] *)
Definition finditer (f : flags) (r : regex) (text : str) : list str :=
  omap (fun p => match p with Matched m => Some m | Unmatched _ => None end)
       (scan f r None text 0).

(** [re.split(r, text)] for a pattern without capturing groups: the
    stretches of unmatched text between the matches. *)
Fixpoint split_pieces (cur : str) (ps : list piece) : list str :=
  match ps with
  | [] => [rev cur]
  | Unmatched c :: ps' => split_pieces (c :: cur) ps'
  | Matched _ :: ps' => rev cur :: split_pieces [] ps'
  end.

Definition re_split (f : flags) (r : regex) (text : str) : list str :=
  split_pieces [] (scan f r None text 0).

(** [re.sub(r, '', text)]: every match replaced by the empty string. *)
Definition re_sub_empty (f : flags) (r : regex) (text : str) : str :=
  omap (fun p => match p with Unmatched c => Some c | Matched _ => None end)
       (scan f r None text 0).

(** Pattern syntax helpers. *)
Definition lit_str (w : str) : regex :=
  foldr (fun c r => Cat (Lit c) r) Eps w.

Definition lit (s : string) : regex := lit_str (u s).

Fixpoint alts (rs : list regex) : regex :=
  match rs with
  | [] => Eps
  | [r] => r
  | r :: rs' => Alt r (alts rs')
  end.

Fixpoint seq (rs : list regex) : regex :=
  match rs with
  | [] => Eps
  | [r] => r
  | r :: rs' => Cat r (seq rs')
  end.

(** ** Values, exceptions and the built-ins applied to the arguments *)

Inductive exn := TypeError | ValueError | OverflowError | AttributeError.

Inductive result (A : Type) :=
| Ok (a : A)
| Raise (e : exn).
Arguments Ok {A} a.
Arguments Raise {A} e.

#[global] Instance result_bind : MBind result := fun A B k x =>
  match x with
  | Ok a => k a
  | Raise e => Raise e
  end.

(** A float: a finite value, an infinity or a NaN. *)
Inductive pyfloat :=
| Finite (q : Q)
| Inf (negative : bool)
| NaN.

(** What a decoded JSON argument can be. *)
Unset Elimination Schemes.
Inductive pyval :=
| PNone
| PBool (b : bool)
| PInt (z : Z)
| PFloat (x : pyfloat)
| PStr (s : str)
| PList (l : list pyval)
| PDict (d : list (str * pyval)).
Set Elimination Schemes.

(** Truth value of an object, as tested by [not x]. *)
Definition truthy (v : pyval) : bool :=
  match v with
  | PNone => false
  | PBool b => b
  | PInt z => negb (z =? 0)%Z
  | PFloat (Finite q) => negb (Qeq_bool q 0)
  | PFloat _ => true
  | PStr s => match s with [] => false | _ => true end
  | PList l => match l with [] => false | _ => true end
  | PDict d => match d with [] => false | _ => true end
  end.

Definition is_digit (c : char) : bool := (48 <=? c) && (c <=? 57).

(** The digits of an integer literal; single underscores may separate
    digits. *)
Fixpoint digits_val (acc : Z) (after_digit : bool) (s : str) : option Z :=
  match s with
  | [] => if after_digit then Some acc else None
  | c :: s' =>
      if is_digit c then digits_val (10 * acc + Z.of_N (c - 48)) true s'
      else if (c =? 95) && after_digit then
        match s' with
        | d :: _ => if is_digit d then digits_val acc false s' else None
        | [] => None
        end
      else None
  end.

(** [int(s)] for a string: surrounding whitespace, an optional sign, decimal
    digits. (ASCII digits; the interpreter's limit on the number of digits
    is not modelled.) *)
Definition int_of_str (s : str) : option Z :=
  match strip s with
  | 43 :: ds => digits_val 0 false ds
  | 45 :: ds => Z.opp <$> digits_val 0 false ds
  | ds => digits_val 0 false ds
  end.

(** [int(v)] *)
Definition py_int (v : pyval) : result Z :=
  match v with
  | PInt z => Ok z
  | PBool b => Ok (if b then 1 else 0)%Z
  | PFloat (Finite q) => Ok (Z.quot (Qnum q) (Z.pos (Qden q)))
  | PFloat (Inf _) => Raise OverflowError
  | PFloat NaN => Raise ValueError
  | PStr s => match int_of_str s with
              | Some z => Ok z
              | None => Raise ValueError
              end
  | PNone | PList _ | PDict _ => Raise TypeError
  end.

(** [d.get(key, default)] *)
Definition get (d : gmap string pyval) (key : string) (default : pyval)
    : pyval :=
  match d !! key with
  | Some v => v
  | None => default
  end.

(** [l[:stop]] *)
Definition slice_to {A} (l : list A) (stop : Z) : list A :=
  if (0 <=? stop)%Z then take (Z.to_nat stop) l
  else take (length l - Z.to_nat (- stop)) l.

(** ** Outcome extraction *)

Definition ws : regex := Cls Space.
Definition NL : char := 10.

(** [[^.!?\n]] and [[.!?]] *)
Definition not_terminator : regex := Cls (NotChars (u ".!?" ++ [NL])).
Definition terminator : regex := Cls (Chars (u ".!?")).
(** [[^.\n]] *)
Definition not_dot_nl : regex := Cls (NotChars (u "." ++ [NL])).

Definition decision_patterns : list regex :=
  [ (* (?:we|they|the team|I)?\s*(?:decided|chose|selected|agreed|concluded)\s+(?:to\s+)?([^.!?\n]+[.!?]) *)
    seq [ Opt (alts [lit "we"; lit "they"; lit "the team"; lit "I"]);
          Star ws;
          alts [lit "decided"; lit "chose"; lit "selected"; lit "agreed";
                lit "concluded"];
          Plus ws;
          Opt (Cat (lit "to") (Plus ws));
          Cat (Plus not_terminator) terminator ];
    (* (?:decision|choice):\s*([^.!?\n]+[.!?]) *)
    seq [ alts [lit "decision"; lit "choice"]; lit ":"; Star ws;
          Cat (Plus not_terminator) terminator ];
    (* (?:will|shall)\s+(?:go with|use|implement|adopt)\s+([^.!?\n]+[.!?]) *)
    seq [ alts [lit "will"; lit "shall"]; Plus ws;
          alts [lit "go with"; lit "use"; lit "implement"; lit "adopt"];
          Plus ws;
          Cat (Plus not_terminator) terminator ] ].

Definition action_patterns : list regex :=
  [ (* (?:TODO|Action|Task|Action item):\s*([^.\n]+\.?) *)
    seq [ alts [lit "TODO"; lit "Action"; lit "Task"; lit "Action item"];
          lit ":"; Star ws;
          Cat (Plus not_dot_nl) (Opt (lit ".")) ];
    (* (?:will|shall|should|must|need to)\s+([^.!?\n]+[.!?]) *)
    seq [ alts [lit "will"; lit "shall"; lit "should"; lit "must";
                lit "need to"];
          Plus ws;
          Cat (Plus not_terminator) terminator ];
    (* \[(?:TODO|ACTION)\]\s*([^.\n]+\.?) *)
    seq [ lit "["; alts [lit "TODO"; lit "ACTION"]; lit "]"; Star ws;
          Cat (Plus not_dot_nl) (Opt (lit ".")) ];
    (* (?:^|\n)\s*[-*]\s*([^.\n]+(?:will|should|needs? to|must)[^.\n]+\.?) *)
    seq [ Alt Bol (Lit NL); Star ws; Cls (Chars (u "-*")); Star ws;
          seq [ Plus not_dot_nl;
                alts [lit "will"; lit "should";
                      seq [lit "need"; Opt (lit "s"); lit " to"];
                      lit "must"];
                Plus not_dot_nl;
                Opt (lit ".") ] ] ].

(** [[^.!?\n]*\?] *)
Definition question_pattern : regex := Cat (Star not_terminator) (lit "?").

(** The set of the clean-up pattern [^\s*[...]\s*] as the source file has
    it: [-], [*] and the three code points U+00E2, U+20AC, U+00A2. *)
Definition marker_chars : list char := u "-*" ++ [226; 8364; 162].
Definition marker_pattern : regex :=
  seq [Bol; Star ws; Cls (Chars marker_chars); Star ws].

Definition nonempty (s : str) : bool :=
  match s with [] => false | _ => true end.

(** [x in l] on a list of strings *)
Definition mem (x : str) (l : list str) : bool := bool_decide (x ∈ l).

(** The body of the inner loop of [extract_decisions] and
    [extract_action_items], for one match. *)
Definition add_match (acc : list str) (m : str) : list str :=
  let item := strip m in
  if nonempty item && negb (mem item acc) then acc ++ [item] else acc.

(** The two nested loops over the patterns and their matches. *)
Definition extract_with (patterns : list regex) (text : str) : list str :=
  fold_left
    (fun acc pattern =>
       fold_left add_match (finditer IGNORECASE_MULTILINE pattern text) acc)
    patterns [].

Definition extract_decisions (text : str) : list str :=
  extract_with decision_patterns text.

Definition extract_action_items (text : str) : list str :=
  extract_with action_patterns text.

(** The body of the loop of [extract_questions], for one match. *)
Definition add_question (acc : list str) (m : str) : list str :=
  let question := strip m in
  if nonempty question && (5 <? length question)%nat then
    let question := re_sub_empty NOFLAGS marker_pattern question in
    if negb (mem question acc) then acc ++ [question] else acc
  else acc.

Definition extract_questions (text : str) : list str :=
  fold_left add_question (finditer MULTILINE question_pattern text) [].

Record OutcomeSet := {
  decisions : list str;
  action_items : list str;
  open_questions : list str
}.

(** [extract_outcomes(arguments)]; the value is the dictionary the tool
    serialises. A text that is not a string reaches [re.finditer]. *)
Definition extract_outcomes (arguments : gmap string pyval)
    : result OutcomeSet :=
  let text := get arguments "text" (PStr []) in
  if negb (truthy text) then
    Ok {| decisions := []; action_items := []; open_questions := [] |}
  else
    match text with
    | PStr text =>
        Ok {| decisions := extract_decisions text;
              action_items := extract_action_items text;
              open_questions := extract_questions text |}
    | _ => Raise TypeError
    end.

(** ** Context trimming *)

(** [calculate_relevance_score(chunk, goal)] *)
Definition calculate_relevance_score (chunk goal : str) : Q :=
  let goal_words : gset str := list_to_set (split (lower goal)) in
  let chunk_words : gset str := list_to_set (split (lower chunk)) in
  let overlap := size (goal_words ∩ chunk_words) in
  if bool_decide (goal_words = ∅) then 0%Q
  else (Z.of_nat overlap # Pos.of_nat (size goal_words))%Q.

Definition filler_patterns : list regex :=
  [ Cat Bol (alts [lit "hi"; lit "hello"; lit "hey"; lit "dear";
                   lit "greetings"]);
    Cat Bol (alts [lit "thanks"; lit "thank you"; lit "cheers"]);
    Cat Bol (alts [lit "best"; lit "regards"; lit "sincerely"]);
    Cat Bol (alts [lit "hope this helps"; lit "let me know"]);
    Cat Bol (alts [lit "i think"; lit "i feel"; lit "i believe";
                   lit "in my opinion"]) ].

(** [re.match(pattern, s)] as a truth value. *)
Definition re_match (f : flags) (r : regex) (s : str) : bool :=
  match match_at f r false None s with
  | Some _ => true
  | None => false
  end.

(** [is_filler_sentence(sentence)] *)
Definition is_filler_sentence (sentence : str) : bool :=
  let sentence_lower := strip (lower sentence) in
  existsb (fun pattern => re_match NOFLAGS pattern sentence_lower)
          filler_patterns.

(** [(?<=[.!?])\s+] *)
Definition sentence_break : regex := Cat (Behind (Chars (u ".!?"))) (Plus ws).

(** [split_into_sentences(text)] *)
Definition split_into_sentences (text : str) : list str :=
  List.map strip
    (List.filter (fun s => nonempty (strip s))
                 (re_split NOFLAGS sentence_break text)).

(** The loop that builds [chunks_with_scores]. The goal is used only when a
    sentence that is not filler is reached; [goal.lower()] raises for a goal
    that is not a string. *)
Fixpoint score_sentences (sentences : list str) (goal : pyval)
    : result (list (str * Q)) :=
  match sentences with
  | [] => Ok []
  | sentence :: rest =>
      if is_filler_sentence sentence then score_sentences rest goal
      else
        match goal with
        | PStr g =>
            let score := calculate_relevance_score sentence g in
            later ← score_sentences rest goal;
            Ok (if Qlt_le_dec 0 score then (sentence, score) :: later
                else later)
        | _ => Raise AttributeError
        end
  end.

(** [list.sort(key=lambda x: x[1], reverse=True)]: the sort is stable, so
    an element goes in front of the first one whose score is not greater. *)
Fixpoint insert_by_score (x : str * Q) (l : list (str * Q))
    : list (str * Q) :=
  match l with
  | [] => [x]
  | y :: l' =>
      if Qle_bool (snd y) (snd x) then x :: l
      else y :: insert_by_score x l'
  end.

Definition sort_by_score (l : list (str * Q)) : list (str * Q) :=
  foldr insert_by_score [] l.

(** [num / den] rounded to the nearest integer, a tie to the even one;
    for [0 <= num] and [0 < den]. *)
Definition round_half_even (num den : Z) : Z :=
  let floor := (num / den)%Z in
  let twice_rest := (2 * (num mod den))%Z in
  if (twice_rest <? den)%Z then floor
  else if (den <? twice_rest)%Z then (floor + 1)%Z
  else if Z.even floor then floor else (floor + 1)%Z.

(** The float that [a / n] evaluates to, for [0 <= a <= n] and [0 < n]: the
    quotient rounded to 53 significant bits, given as its numerator and the
    exponent [e] of its denominator [2 ^ e]. The exponent stops at the one
    of the subnormal floats. *)
Definition true_divide (a n : Z) : Z * Z :=
  if (a =? 0)%Z then (0, 0)%Z
  else
    let e0 := (52 - (Z.log2 a - Z.log2 n))%Z in
    let e1 := if (a * 2 ^ e0 <? n * 2 ^ 52)%Z then (e0 + 1)%Z else e0 in
    let e := Z.min e1 1074 in
    (round_half_even (a * 2 ^ e) n, e).

Fixpoint uint_digits (d : Decimal.uint) : str :=
  match d with
  | Decimal.Nil => []
  | Decimal.D0 d => 48 :: uint_digits d
  | Decimal.D1 d => 49 :: uint_digits d
  | Decimal.D2 d => 50 :: uint_digits d
  | Decimal.D3 d => 51 :: uint_digits d
  | Decimal.D4 d => 52 :: uint_digits d
  | Decimal.D5 d => 53 :: uint_digits d
  | Decimal.D6 d => 54 :: uint_digits d
  | Decimal.D7 d => 55 :: uint_digits d
  | Decimal.D8 d => 56 :: uint_digits d
  | Decimal.D9 d => 57 :: uint_digits d
  end.

(** The decimal digits of a natural number. *)
Definition decimal (n : N) : str := uint_digits (N.to_uint n).

(** [f"{x:.2f}"] for the float [m / 2 ^ e], [0 <= m]: the value rounded
    to hundredths, a tie to the even one. *)
Definition format_2f (x : Z * Z) : str :=
  let '(m, e) := x in
  let hundredths := Z.to_N (round_half_even (100 * m) (2 ^ e)) in
  let cents := hundredths mod 100 in
  decimal (hundredths / 100) ++ u "."
  ++ (if cents <? 10 then u "0" else []) ++ decimal cents.

(** [f"High relevance to goal (score: {score:.2f})"]; what is printed is
    the float the quotient evaluates to. *)
Definition reason_of (score : Q) : str :=
  u "High relevance to goal (score: "
  ++ format_2f (true_divide (Qnum score) (Z.pos (Qden score)))
  ++ u ")".

(** One entry of [selected_chunks]. *)
Record chunk := { text : str; reason : str }.

(** The loop that builds [selected_chunks] from [top_chunks]. *)
Definition format_chunks (top_chunks : list (str * Q)) : list chunk :=
  List.map (fun '(c, score) => {| text := c; reason := reason_of score |})
           top_chunks.

(** [trim_context(arguments)] up to the value of [top_chunks], the
    (sentence, score) pairs that are kept. *)
Definition top_chunks (arguments : gmap string pyval)
    : result (list (str * Q)) :=
  let text := get arguments "text" (PStr []) in
  let goal := get arguments "goal" (PStr []) in
  max_chunks ← py_int (get arguments "max_chunks" (PInt 5));
  if negb (truthy text) || negb (truthy goal) then Ok []
  else
    match text with
    | PStr text =>
        let sentences := split_into_sentences text in
        chunks_with_scores ← score_sentences sentences goal;
        let sorted := sort_by_score chunks_with_scores in
        Ok (slice_to sorted max_chunks)
    | _ => Raise TypeError
    end.

(** [trim_context(arguments)]; the value is the list under
    [selected_chunks]. *)
Definition trim_context (arguments : gmap string pyval)
    : result (list chunk) :=
  top ← top_chunks arguments;
  Ok (format_chunks top).

(** ** Notions the specification speaks of *)

(** Where each match starts: the characters of the pieces before it. *)
Fixpoint locate (pos : nat) (ps : list piece) : list (nat * str) :=
  match ps with
  | [] => []
  | Unmatched _ :: ps' => locate (S pos) ps'
  | Matched m :: ps' => (pos, m) :: locate (pos + length m) ps'
  end.

(** [[(m.start(), m.group(0)) for m in re.finditer(r, text, f)]] *)
Definition finditer_at (f : flags) (r : regex) (text : str)
    : list (nat * str) :=
  locate 0 (scan f r None text 0).

(** What a match of a decision or action rule is stored as, if at all. *)
Definition stored (m : str) : option str :=
  let item := strip m in
  if nonempty item then Some item else None.

(** What a match of the question rule is stored as, if at all. *)
Definition stored_question (m : str) : option str :=
  let question := strip m in
  if nonempty question && (5 <? length question)%nat
  then Some (re_sub_empty NOFLAGS marker_pattern question)
  else None.

(** A match that yields a string: the rule (by its place in the list of
    the category), the place in the text, the string stored for it. *)
Record hit := { rule : nat; start : nat; item : str }.

Definition hits_of_rule (clean : str -> option str) (f : flags) (i : nat)
    (pattern : regex) (text : str) : list hit :=
  omap (fun '(pos, m) =>
          match clean m with
          | Some x => Some {| rule := i; start := pos; item := x |}
          | None => None
          end)
       (finditer_at f pattern text).

Fixpoint hits_from (clean : str -> option str) (f : flags) (i : nat)
    (patterns : list regex) (text : str) : list hit :=
  match patterns with
  | [] => []
  | pattern :: rest =>
      hits_of_rule clean f i pattern text
      ++ hits_from clean f (S i) rest text
  end.

Definition decision_hits (text : str) : list hit :=
  hits_from stored IGNORECASE_MULTILINE 0 decision_patterns text.
Definition action_hits (text : str) : list hit :=
  hits_from stored IGNORECASE_MULTILINE 0 action_patterns text.
Definition question_hits (text : str) : list hit :=
  hits_from stored_question MULTILINE 0 [question_pattern] text.

(** [h1] comes no later than [h2] in the text. *)
Definition text_le (h1 h2 : hit) : Prop := (start h1 <= start h2)%nat.

(** [h1] comes no later than [h2] when the matches are taken rule by
    rule, and in text order within a rule. *)
Definition rule_le (h1 h2 : hit) : Prop :=
  (rule h1 < rule h2)%nat
  \/ (rule h1 = rule h2 /\ (start h1 <= start h2)%nat).

(** The list [l] holds its strings in the order of their first matches,
    [le] saying which of two matches is first: a string listed before
    another one has a match that is no later than every match of the
    other. *)
Definition listed_by_first_match (le : hit -> hit -> Prop)
    (hs : list hit) (l : list str) : Prop :=
  forall i j x y,
    l !! i = Some x -> l !! j = Some y -> (i < j)%nat ->
    exists hx, hx ∈ hs /\ item hx = x /\
      forall hy, hy ∈ hs -> item hy = y -> le hx hy.

(** [l] lists the strings of the hits [hs], each once, in the order of
    their first matches. *)
Definition lists_first_matches (le : hit -> hit -> Prop)
    (hs : list hit) (l : list str) : Prop :=
  NoDup l
  /\ (forall x, x ∈ l <-> exists h, h ∈ hs /\ item h = x)
  /\ listed_by_first_match le hs l.

(** Append unless present. *)
Definition push_new (acc : list str) (x : str) : list str :=
  if mem x acc then acc else acc ++ [x].

(** The loop body for one match, when [clean] says what is stored. *)
Definition add_clean (clean : str -> option str) (acc : list str) (m : str)
    : list str :=
  match clean m with
  | Some x => push_new acc x
  | None => acc
  end.

Definition matched_text (p : piece) : option str :=
  match p with Matched m => Some m | Unmatched _ => None end.

Definition unmatched_char (p : piece) : option char :=
  match p with Unmatched c => Some c | Matched _ => None end.

(** The text a list of pieces spells. *)
Definition pieces_text (ps : list piece) : str :=
  flat_map (fun p => match p with Unmatched c => [c] | Matched m => m end)
           ps.

(** The continuation of a plain match attempt. *)
Definition accept : kont := fun _ rest => Some rest.


(** Steps 3 and 4: what a sentence contributes to [chunks_with_scores]. *)
Definition survivor (goal sentence : str) : option (str * Q) :=
  if is_filler_sentence sentence then None
  else
    let score := calculate_relevance_score sentence goal in
    if Qlt_le_dec 0 score then Some (sentence, score) else None.

(** The sentence is kept: it is not filler and its score is positive. *)
Definition survives (goal sentence : str) : bool :=
  match survivor goal sentence with Some _ => true | None => false end.

(** Higher score first. *)
Definition score_ge (a b : str * Q) : Prop := (a.2 >= b.2)%Q.

Definition has_score (q : Q) (x : str * Q) : bool := Qeq_bool x.2 q.


(** [set(s.lower().split())] *)
Definition words (s : str) : gset str := list_to_set (split (lower s)).

(** The lead-ins of [filler_patterns], pattern by pattern. *)
Definition lead_in_groups : list (list str) :=
  [ [u "hi"; u "hello"; u "hey"; u "dear"; u "greetings"];
    [u "thanks"; u "thank you"; u "cheers"];
    [u "best"; u "regards"; u "sincerely"];
    [u "hope this helps"; u "let me know"];
    [u "i think"; u "i feel"; u "i believe"; u "in my opinion"] ].

Definition lead_ins : list str := concat lead_in_groups.

Definition QUESTION_MARK : char := 63.
Definition BULLET : char := 8226.

(** [.], [!], [?] or a newline. *)
Definition is_terminator (c : char) : bool :=
  (c =? 46) || (c =? 33) || (c =? 63) || (c =? 10).

(** The runs of non-terminator characters that end in [?], each with its
    [?]; [cur] is the run being read, most recent character first. *)
Fixpoint question_runs (cur : str) (s : str) : list str :=
  match s with
  | [] => []
  | c :: s' =>
      if c =? QUESTION_MARK then rev (c :: cur) :: question_runs [] s'
      else if is_terminator c then question_runs [] s'
      else question_runs (c :: cur) s'
  end.

(** Where the run that starts here ends, if it ends in [?]. *)
Fixpoint question_end (s : str) : option str :=
  match s with
  | [] => None
  | c :: s' =>
      if c =? QUESTION_MARK then Some s'
      else if is_terminator c then None
      else question_end s'
  end.

(** ** Calls and texts the properties are checked on *)

(** A dictionary of arguments. *)
Definition args (l : list (string * pyval)) : gmap string pyval :=
  list_to_map l.

Definition scenario_a : str :=
  u "We decided to use PostgreSQL. The team agreed to move forward.".
Definition scenario_b : str :=
  u "John will set up the environment. TODO: Review the documentation. We must complete this by Friday.".
Definition scenario_c : str :=
  u "Should we use Docker? How do we handle authentication? This works fine.".
Definition scenario_d : gmap string pyval :=
  args [ ("text"%string,
          PStr (u "Hi there! The deadline is March 15th. We need JSON support."));
         ("goal"%string, PStr (u "deadline"));
         ("max_chunks"%string, PInt 2) ].

Definition repeated_text : str :=
  u "We decided to wait. Why so late? We decided to wait. Why so late?".

Definition label_then_verb : str := u "Decision: go. We decided to stay.".

Definition bulleted_question : str := BULLET :: u " Is it ok?".

Definition two_relevant_sentences : gmap string pyval :=
  args [ ("text"%string, PStr (u "Alpha beta. Alpha gamma."));
         ("goal"%string, PStr (u "alpha"));
         ("max_chunks"%string, PInt (-1)) ].



Definition tied_call : gmap string pyval :=
  args [ ("text"%string,
          PStr (u "Alpha one. Beta alpha beta. Alpha two. Alpha three."));
         ("goal"%string, PStr (u "alpha beta"));
         ("max_chunks"%string, PInt 3) ].

Definition tied_result : list chunk :=
  [ {| text := u "Beta alpha beta.";
       reason := u "High relevance to goal (score: 1.00)" |};
    {| text := u "Alpha one.";
       reason := u "High relevance to goal (score: 0.50)" |};
    {| text := u "Alpha two.";
       reason := u "High relevance to goal (score: 0.50)" |} ].

(** ** The tool interface *)

Inductive json_type := JsonString | JsonNumber.

(** One entry under [properties] of an input schema. *)
Record property := {
  prop_name : string;
  prop_type : json_type;
  prop_description : string;
  prop_default : option pyval
}.

(** A [Tool]: its name, its description and, of its input schema (an
    object), the properties and the required keys. *)
Record Tool := {
  tool_name : string;
  tool_description : string;
  tool_properties : list property;
  tool_required : list string
}.

(** [list_tools()] *)
Definition list_tools : list Tool :=
  [ {| tool_name := "extract_outcomes";
       tool_description :=
         "Extract explicit decisions, action items, and open questions from text. Returns only items explicitly stated in the input.";
       tool_properties :=
         [ {| prop_name := "text"; prop_type := JsonString;
              prop_description := "The text to analyze for outcomes";
              prop_default := None |} ];
       tool_required := ["text"%string] |};
    {| tool_name := "trim_context";
       tool_description :=
         "Reduce long text to the minimum context required to accomplish a goal. Removes filler and preserves essential facts, constraints, and decisions.";
       tool_properties :=
         [ {| prop_name := "text"; prop_type := JsonString;
              prop_description := "The text to reduce";
              prop_default := None |};
           {| prop_name := "goal"; prop_type := JsonString;
              prop_description := "The goal that the context should support";
              prop_default := None |};
           {| prop_name := "max_chunks"; prop_type := JsonNumber;
              prop_description :=
                "Maximum number of chunks to return (default: 5)";
              prop_default := Some (PInt 5) |} ];
       tool_required := ["text"%string; "goal"%string] |} ].

(** What a tool returns, before it is serialised. *)
Inductive tool_value :=
| Outcomes (o : OutcomeSet)
| Chunks (l : list chunk).

(** A line of the error log: the tool named in it and the exception whose
    text it carries. *)
Record error_log := { failed_tool : string; failure : exn }.

(** [call_tool(name, arguments)]: the value returned or the exception
    raised again, and what was logged. *)
Definition call_tool (name : string) (arguments : gmap string pyval)
    : result tool_value * list error_log :=
  let outcome :=
    if decide (name = "extract_outcomes"%string) then
      o ← extract_outcomes arguments; Ok (Outcomes o)
    else if decide (name = "trim_context"%string) then
      l ← trim_context arguments; Ok (Chunks l)
    else Raise ValueError in
  match outcome with
  | Ok v => (Ok v, [])
  | Raise e => (Raise e, [ {| failed_tool := name; failure := e |} ])
  end.

Definition is_ok {A} (r : result A) : bool :=
  match r with Ok _ => true | Raise _ => false end.

(** ** Notions of the further properties *)

(** [x] stands in [text] as a run of consecutive characters. *)
Definition substring (x text : str) : Prop :=
  exists a b, text = a ++ x ++ b.

(** The last character of [s] satisfies [p]. *)
Definition ends_with (p : char -> bool) (s : str) : Prop :=
  exists w c, s = w ++ [c] /\ p c = true.

(** [.], [!] or [?] *)
Definition is_sentence_end (c : char) : bool :=
  (c =? 46) || (c =? 33) || (c =? 63).

Definition is_question_mark (c : char) : bool := c =? QUESTION_MARK.

Definition is_marker (c : char) : bool := bool_decide (c ∈ marker_chars).

(** The clean-up of a question without the pattern: the whitespace in
    front, one marker character and the whitespace after it are removed; a
    string that does not start this way is left as it is. *)
Definition strip_marker (s : str) : str :=
  match lstrip s with
  | c :: t => if is_marker c then lstrip t else s
  | [] => s
  end.

(** The character before the position that lies [w] behind a position
    whose own previous character is [prev]. *)
Definition last_char (prev : option char) (w : str) : option char :=
  match last w with
  | Some c => Some c
  | None => prev
  end.

(** The last step of the pattern reads a character of the set [cs]. *)
Inductive ends_in (cs : cset) : regex -> Prop :=
| ends_in_cls : ends_in cs (Cls cs)
| ends_in_cat r1 r2 : ends_in cs r2 -> ends_in cs (Cat r1 r2).

(** The sentences that survive filtering, in the order of the text. *)
Definition survivors (goal text : str) : list str :=
  List.filter (survives goal) (split_into_sentences text).



(** Texts the further properties are checked on. *)
Definition undecided_text : str :=
  u "We decided to use PostgreSQL, TODO: tell the team".

Definition questioned_text : str :=
  u "Plan - Should we use Docker? * Which database?".

Definition deadline_call : gmap string pyval :=
  args [ ("text"%string,
          PStr (u "Hi team! The deadline is Friday. Lunch is at noon. Is the deadline fixed?"));
         ("goal"%string, PStr (u "deadline"));
         ("max_chunks"%string, PInt 1) ].



Definition two_key_call : gmap string pyval :=
  args [ ("text"%string, PStr (u "The deadline is Friday. Lunch is at noon."));
         ("goal"%string, PStr (u "deadline")) ].

(** ** The engine on the scenarios of the specification *)

Example scenario_a_decisions :
  extract_decisions scenario_a
  = [u "We decided to use PostgreSQL."; u "The team agreed to move forward."].
Proof. by vm_compute. Qed.

Example scenario_b_action_items :
  extract_action_items scenario_b
  = [ u "TODO: Review the documentation.";
      u "will set up the environment.";
      u "must complete this by Friday." ].
Proof. by vm_compute. Qed.

Example scenario_c_questions :
  extract_questions scenario_c
  = [u "Should we use Docker?"; u "How do we handle authentication?"].
Proof. by vm_compute. Qed.

Example scenario_d_chunks :
  trim_context scenario_d
  = Ok [ {| text := u "The deadline is March 15th.";
            reason := u "High relevance to goal (score: 1.00)" |} ].
Proof. by vm_compute. Qed.

Example two_decimals :
  List.map (fun '(a, n) => format_2f (true_divide a n))
    [(1, 3); (2, 3); (1, 8); (3, 8); (1, 200); (7, 7)]%Z
  = [u "0.33"; u "0.67"; u "0.12"; u "0.38"; u "0.01"; u "1.00"].
Proof. by vm_compute. Qed.

Example sentences_of_scenario_d :
  split_into_sentences
    (u "Hi there! The deadline is March 15th. We need JSON support.")
  = [u "Hi there!"; u "The deadline is March 15th.";
     u "We need JSON support."].
Proof. by vm_compute. Qed.

Example empty_matches_of_star :
  finditer NOFLAGS (Star (Lit 120)) (u "axb") = [[]; [120]; []; []]
  /\ re_split NOFLAGS (Star (Lit 120)) (u "axb") = [[]; [97]; []; [98]; []].
Proof. by vm_compute. Qed.

(** ** The search loop *)

(** A match stops at a position of the text it started in: the
    continuation only ever receives what is left of the text. *)
Lemma star_loop_suffix (body : matcher) k fuel :
  (forall prev s k' rest,
      body prev s k' = Some rest ->
      exists p' s', s' `suffix_of` s /\ k' p' s' = Some rest) ->
  forall prev s rest,
    star_loop body k fuel prev s = Some rest ->
    exists p' s', s' `suffix_of` s /\ k p' s' = Some rest.
Proof.
  intros Hbody. induction fuel as [|n IH]; intros prev s rest; simpl.
  - intros H. by exists prev, s.
  - destruct (body prev s _) as [x|] eqn:Hb.
    + intros [= ->]. apply Hbody in Hb as (p1 & s1 & Hs1 & Hk).
      destruct (length s1 <? length s)%nat; [|done].
      apply IH in Hk as (p2 & s2 & Hs2 & Hk).
      exists p2, s2. split; [by etrans|done].
    + intros H. by exists prev, s.
Qed.

Lemma rmatch_suffix f r : forall prev s k rest,
  rmatch f r prev s k = Some rest ->
  exists p' s', s' `suffix_of` s /\ k p' s' = Some rest.
Proof.
  induction r as [|p|cs| |cs|r1 IH1 r2 IH2|r1 IH1 r2 IH2|r1 IH1|r1 IH1
                  |r1 IH1]; intros prev s k rest; cbn [rmatch].
  - intros H. by exists prev, s.
  - destruct s as [|c s]; [done|]. destruct (lit_matches f p c); [|done].
    intros H. exists (Some c), s. split; [by apply suffix_cons_r|done].
  - destruct s as [|c s]; [done|]. destruct (cset_matches f cs c); [|done].
    intros H. exists (Some c), s. split; [by apply suffix_cons_r|done].
  - destruct (at_bol f prev); [|done]. intros H. by exists prev, s.
  - destruct prev as [c|]; [|done].
    destruct (cset_matches f cs c); [|done]. intros H. by exists (Some c), s.
  - intros H. apply IH1 in H as (p1 & s1 & Hs1 & H).
    apply IH2 in H as (p2 & s2 & Hs2 & H).
    exists p2, s2. split; [by etrans|done].
  - destruct (rmatch f r1 prev s k) eqn:H1.
    + intros [= ->]. by apply IH1 in H1.
    + apply IH2.
  - destruct (rmatch f r1 prev s k) eqn:H1.
    + intros [= ->]. by apply IH1 in H1.
    + intros H. by exists prev, s.
  - apply star_loop_suffix, IH1.
  - intros H. apply IH1 in H as (p1 & s1 & Hs1 & H).
    apply (star_loop_suffix _ _ _ IH1) in H as (p2 & s2 & Hs2 & H).
    exists p2, s2. split; [by etrans|done].
Qed.

Lemma match_at_suffix f r b prev s rest :
  match_at f r b prev s = Some rest ->
  rest `suffix_of` s /\ (b = true -> length rest <> length s).
Proof.
  unfold match_at. intros H.
  apply rmatch_suffix in H as (p' & s' & Hs & H).
  destruct b; simpl in H.
  - destruct (Nat.eqb_spec (length s') (length s)); [done|].
    injection H as <-. done.
  - injection H as <-. done.
Qed.

(** The pieces of a scan spell the text, so the places [locate] counts
    are places in the text. *)
Lemma scan_spells_text f r s : forall prev n,
  (n <= length s)%nat -> pieces_text (scan f r prev s n) = drop n s.
Proof.
  assert (Hcut : forall c (s' : str) n,
            (n <= length s')%nat ->
            take (S n) (c :: s') ++ drop n s' = c :: s').
  { intros c s' n _. cbn [take]. by rewrite <- app_comm_cons, take_drop. }
  induction s as [|c s IH]; intros prev n Hn.
  - destruct n; [|simpl in Hn; lia]. cbn [scan].
    by destruct (match_at f r false prev []).
  - destruct n as [|n]; [|apply IH; simpl in Hn; lia].
    cbn [scan drop].
    destruct (match_at f r false prev (c :: s)) as [rest|] eqn:Hm.
    + apply match_at_suffix in Hm as [Hsuf _].
      apply suffix_length in Hsuf.
      destruct (length (c :: s) - length rest)%nat as [|n] eqn:Hlen.
      * unfold pieces_text. cbn [flat_map app]. fold pieces_text.
        destruct (match_at f r true prev (c :: s)) as [rest2|] eqn:Hm2.
        -- apply match_at_suffix in Hm2 as [Hsuf2 Hne].
           apply suffix_length in Hsuf2. specialize (Hne eq_refl).
           destruct (length (c :: s) - length rest2)%nat as [|n2] eqn:Hlen2;
             [lia|].
           unfold pieces_text. cbn [flat_map]. fold pieces_text.
           rewrite IH by (simpl in *; lia).
           replace (S n2 - 1)%nat with n2 by lia.
           apply Hcut. simpl in *; lia.
        -- unfold pieces_text. cbn [flat_map]. fold pieces_text.
           by rewrite IH by lia.
      * unfold pieces_text. cbn [flat_map]. fold pieces_text.
        rewrite IH by (simpl in *; lia).
        apply Hcut. simpl in *; lia.
    + unfold pieces_text. cbn [flat_map]. fold pieces_text.
      by rewrite IH by lia.
Qed.

(** ** The append-unless-present loops *)

Section PushNew.

Lemma push_new_NoDup acc x : NoDup acc -> NoDup (push_new acc x).
Proof.
  intros Hnd. unfold push_new, mem. case_bool_decide as Hin; [done|].
  apply NoDup_app. split_and!; [done| |apply NoDup_singleton].
  intros y Hy Hy'. apply list_elem_of_singleton in Hy'. by subst.
Qed.

Lemma fold_push_new_NoDup c acc :
  NoDup acc -> NoDup (fold_left push_new c acc).
Proof.
  revert acc. induction c as [|x c IH]; intros acc Hnd; simpl; [done|].
  apply IH, push_new_NoDup, Hnd.
Qed.

Lemma elem_of_push_new acc x y :
  y ∈ push_new acc x <-> y ∈ acc \/ y = x.
Proof.
  unfold push_new, mem. case_bool_decide as Hin.
  - split; [by left|]. intros [?| ->]; done.
  - rewrite elem_of_app, list_elem_of_singleton. done.
Qed.

Lemma elem_of_fold_push_new c acc y :
  y ∈ fold_left push_new c acc <-> y ∈ acc \/ y ∈ c.
Proof.
  revert acc. induction c as [|x c IH]; intros acc; simpl.
  - rewrite elem_of_nil. tauto.
  - rewrite IH, elem_of_push_new, elem_of_cons. tauto.
Qed.

(** Every stored string stands where its first candidate put it: no
    string stored at or after it has a candidate before that one. *)
Lemma fold_push_new_first c :
  forall r1 x r2,
    fold_left push_new c [] = r1 ++ x :: r2 ->
    exists c1 c2, c = c1 ++ x :: c2 /\
      forall y, y ∈ x :: r2 -> y ∉ c1.
Proof.
  induction c as [|z c IH] using rev_ind; intros r1 x r2 Hr.
  - simpl in Hr. by destruct r1.
  - rewrite fold_left_app in Hr. simpl in Hr.
    unfold push_new, mem in Hr. case_bool_decide as Hin.
    + destruct (IH _ _ _ Hr) as (c1 & c2 & -> & Hc).
      exists c1, (c2 ++ [z]). by rewrite <- app_assoc.
    + assert (Hz : z ∉ c).
      { intros Hzc. apply Hin, elem_of_fold_push_new. by right. }
      destruct r2 as [|y r2 _] using rev_ind.
      * apply app_inj_tail in Hr as [Hr ->].
        exists c, []. split; [done|].
        intros y Hy. apply list_elem_of_singleton in Hy. by subst.
      * rewrite app_comm_cons, app_assoc in Hr.
        apply app_inj_tail in Hr as [Hr ->].
        destruct (IH _ _ _ Hr) as (c1 & c2 & -> & Hc).
        exists c1, (c2 ++ [y]). split; [by rewrite <- app_assoc|].
        intros w Hw. rewrite app_comm_cons, elem_of_app in Hw.
        destruct Hw as [Hw|Hw]; [by apply Hc|].
        apply list_elem_of_singleton in Hw. subst w.
        intros Hy. apply Hz. rewrite elem_of_app. by left.
Qed.

End PushNew.

(** ** From the loops of the extractors to their candidates *)

Lemma locate_texts pos ps : (locate pos ps).*2 = omap matched_text ps.
Proof.
  revert pos. induction ps as [|[c|m] ps IH]; intros pos; simpl;
    [done|apply IH|by rewrite IH].
Qed.

Lemma finditer_at_texts f r text :
  (finditer_at f r text).*2 = finditer f r text.
Proof. apply locate_texts. Qed.

(** The matches are found from left to right. *)
Lemma locate_sorted pos ps :
  Forall (fun h => (pos <= h.1)%nat) (locate pos ps)
  /\ StronglySorted (fun h1 h2 => (h1.1 <= h2.1)%nat) (locate pos ps).
Proof.
  revert pos. induction ps as [|[c|m] ps IH]; intros pos; simpl.
  - split; constructor.
  - destruct (IH (S pos)) as [Hall Hs]. split; [|done].
    eapply Forall_impl; [exact Hall|]. simpl. lia.
  - destruct (IH (pos + length m)%nat) as [Hall Hs]. split.
    + constructor; [simpl; lia|].
      eapply Forall_impl; [exact Hall|]. simpl. lia.
    + constructor; [done|].
      eapply Forall_impl; [exact Hall|]. simpl. lia.
Qed.

Section Candidates.
Variable clean : str -> option str.

Lemma fold_add_clean ms acc :
  fold_left (add_clean clean) ms acc = fold_left push_new (omap clean ms) acc.
Proof.
  revert acc. induction ms as [|m ms IH]; intros acc; simpl; [done|].
  rewrite IH. unfold add_clean. by destruct (clean m).
Qed.

Lemma fold_patterns f (patterns : list regex) text acc :
  fold_left
    (fun acc pattern => fold_left (add_clean clean) (finditer f pattern text) acc)
    patterns acc
  = fold_left push_new
      (flat_map (fun pattern => omap clean (finditer f pattern text))
                patterns) acc.
Proof.
  revert acc. induction patterns as [|p ps IH]; intros acc; simpl; [done|].
  by rewrite IH, fold_left_app, fold_add_clean.
Qed.

Lemma hits_of_rule_items f i pattern text :
  item <$> hits_of_rule clean f i pattern text
  = omap clean (finditer f pattern text).
Proof.
  unfold hits_of_rule. rewrite <- finditer_at_texts.
  induction (finditer_at f pattern text) as [|[pos m] l IH]; csimpl;
    [done|].
  destruct (clean m); csimpl; by rewrite IH.
Qed.

Lemma hits_from_items f i patterns text :
  item <$> hits_from clean f i patterns text
  = flat_map (fun pattern => omap clean (finditer f pattern text))
             patterns.
Proof.
  revert i. induction patterns as [|p ps IH]; intros i; simpl; [done|].
  by rewrite fmap_app, hits_of_rule_items, IH.
Qed.

Lemma hits_of_rule_rule f i pattern text :
  Forall (fun h => rule h = i) (hits_of_rule clean f i pattern text).
Proof.
  unfold hits_of_rule. apply Forall_forall. intros h Hh.
  apply list_elem_of_omap in Hh as ([pos m] & _ & Hh).
  destruct (clean m); [|done]. by injection Hh as <-.
Qed.

Lemma hits_from_rule f i patterns text :
  Forall (fun h => (i <= rule h)%nat) (hits_from clean f i patterns text).
Proof.
  revert i. induction patterns as [|p ps IH]; intros i; simpl;
    [constructor|].
  apply Forall_app. split.
  - eapply Forall_impl; [apply hits_of_rule_rule|]. simpl. lia.
  - eapply Forall_impl; [apply (IH (S i))|]. simpl. lia.
Qed.

Lemma hits_of_rule_sorted f i pattern text :
  StronglySorted rule_le (hits_of_rule clean f i pattern text).
Proof.
  unfold hits_of_rule, finditer_at.
  destruct (locate_sorted 0 (scan f pattern None text 0)) as [_ Hs].
  induction Hs as [|[pos m] l Hs IH Hall]; simpl; [constructor|].
  destruct (clean m) as [x|]; [|done].
  constructor; [done|].
  apply Forall_forall. intros h Hh.
  apply list_elem_of_omap in Hh as ([pos' m'] & Hin & Hh).
  destruct (clean m'); [|done]. injection Hh as <-.
  rewrite Forall_forall in Hall. specialize (Hall _ Hin).
  right. simpl in *. done.
Qed.

(** The hits of a category are listed rule by rule, left to right
    within a rule. *)
Lemma hits_from_sorted f i patterns text :
  StronglySorted rule_le (hits_from clean f i patterns text).
Proof.
  revert i. induction patterns as [|p ps IH]; intros i; simpl;
    [constructor|].
  apply StronglySorted_app. split_and!;
    [|apply hits_of_rule_sorted|apply IH].
  intros h1 h2 H1 H2. left.
  pose proof (hits_of_rule_rule f i p text) as Hr.
  pose proof (hits_from_rule f (S i) ps text) as Hr'.
  rewrite Forall_forall in Hr, Hr'.
  rewrite (Hr _ H1). apply (Hr' _ H2).
Qed.

(** What the loops store is listed in the order of the first hits. *)
Lemma fold_listed_by_rule f patterns text :
  listed_by_first_match rule_le
    (hits_from clean f 0 patterns text)
    (fold_left
       (fun acc pattern =>
          fold_left (add_clean clean) (finditer f pattern text) acc)
       patterns []).
Proof.
  intros i j x y Hi Hj Hij.
  rewrite fold_patterns in Hi, Hj.
  rewrite <- (hits_from_items f 0) in Hi, Hj.
  set (hs := hits_from clean f 0 patterns text) in *.
  set (r := fold_left push_new (item <$> hs) []) in *.
  assert (Hr : r = take i r ++ x :: drop (S i) r)
    by (symmetry; by apply take_drop_middle).
  destruct (fold_push_new_first _ _ _ _ Hr) as (c1 & c2 & Hc & Hfirst).
  apply fmap_app_inv in Hc as (h1 & h2' & -> & Hc & Hhs).
  symmetry in Hc.
  apply fmap_cons_inv in Hc as (hx & h2 & Hx & -> & ->).
  exists hx. split; [|split; [done|]].
  { rewrite Hhs. apply elem_of_app. right. apply elem_of_cons. by left. }
  intros hy Hy Hitem.
  assert (Hyr : y ∈ x :: drop (S i) r).
  { apply elem_of_cons. right. apply list_elem_of_lookup.
    exists (j - S i)%nat. rewrite lookup_drop.
    by replace (S i + (j - S i))%nat with j by lia. }
  specialize (Hfirst _ Hyr).
  rewrite Hhs in Hy. apply elem_of_app in Hy as [Hy|Hy].
  { exfalso. apply Hfirst. rewrite <- Hitem.
    by apply list_elem_of_fmap_2. }
  apply elem_of_cons in Hy as [->|Hy].
  { right. split; [done|lia]. }
  pose proof (hits_from_sorted f 0 patterns text) as Hs.
  fold hs in Hs. rewrite Hhs in Hs.
  apply StronglySorted_app_1_r in Hs.
  apply StronglySorted_cons in Hs as [Hall _].
  rewrite Forall_forall in Hall. by apply Hall.
Qed.

(** What the loops store is what the hits yield, each string once. *)
Lemma fold_lists_first_matches f patterns text :
  lists_first_matches rule_le
    (hits_from clean f 0 patterns text)
    (fold_left
       (fun acc pattern =>
          fold_left (add_clean clean) (finditer f pattern text) acc)
       patterns []).
Proof.
  split_and!; [| |apply fold_listed_by_rule].
  - rewrite fold_patterns. apply fold_push_new_NoDup, NoDup_nil_2.
  - intros x. rewrite fold_patterns, <- (hits_from_items f 0).
    rewrite elem_of_fold_push_new, elem_of_nil, list_elem_of_fmap.
    split.
    + intros [[]|(h & -> & Hh)]. by exists h.
    + intros (h & Hh & <-). right. by exists h.
Qed.

End Candidates.

Lemma fold_left_ext_eq {A B} (g h : A -> B -> A) l a :
  (forall a b, g a b = h a b) -> fold_left g l a = fold_left h l a.
Proof.
  intros Hgh. revert a. induction l as [|b l IH]; intros a; simpl; [done|].
  by rewrite Hgh, IH.
Qed.

Lemma add_match_clean acc m : add_match acc m = add_clean stored acc m.
Proof.
  unfold add_match, add_clean, stored, push_new.
  destruct (nonempty (strip m)); simpl; [|done].
  by destruct (mem (strip m) acc).
Qed.

Lemma add_question_clean acc m :
  add_question acc m = add_clean stored_question acc m.
Proof.
  unfold add_question, add_clean, stored_question, push_new.
  destruct (nonempty (strip m) && (5 <? length (strip m))%nat); [|done].
  by destruct (mem _ acc).
Qed.

Lemma extract_with_clean patterns text :
  extract_with patterns text
  = fold_left
      (fun acc pattern =>
         fold_left (add_clean stored)
                   (finditer IGNORECASE_MULTILINE pattern text) acc)
      patterns [].
Proof.
  unfold extract_with. apply fold_left_ext_eq. intros acc p.
  apply fold_left_ext_eq, add_match_clean.
Qed.

Lemma extract_questions_clean text :
  extract_questions text
  = fold_left
      (fun acc pattern =>
         fold_left (add_clean stored_question)
                   (finditer MULTILINE pattern text) acc)
      [question_pattern] [].
Proof.
  unfold extract_questions. simpl.
  apply fold_left_ext_eq, add_question_clean.
Qed.

Lemma extract_with_NoDup patterns text : NoDup (extract_with patterns text).
Proof.
  rewrite extract_with_clean, fold_patterns.
  apply fold_push_new_NoDup, NoDup_nil_2.
Qed.

Lemma extract_questions_NoDup text : NoDup (extract_questions text).
Proof.
  rewrite extract_questions_clean, fold_patterns.
  apply fold_push_new_NoDup, NoDup_nil_2.
Qed.

(** ** Properties of the outcome extractor *)

(** C8. No string appears twice within one category list of the
    OutcomeSet that [extract_outcomes] returns. *)
Theorem outcome_lists_have_no_duplicates arguments o :
  extract_outcomes arguments = Ok o ->
  NoDup (decisions o) /\ NoDup (action_items o) /\ NoDup (open_questions o).
Proof.
  unfold extract_outcomes. intros H.
  destruct (negb (truthy _)).
  - injection H as <-. simpl. split_and!; apply NoDup_nil_2.
  - destruct (get arguments "text" (PStr [])); try discriminate.
    injection H as <-. simpl. split_and!.
    + apply extract_with_NoDup.
    + apply extract_with_NoDup.
    + apply extract_questions_NoDup.
Qed.

Lemma outcome_lists_have_no_duplicates_witness :
  NoDup [u "We decided to wait."] /\ NoDup ([] : list str)
  /\ NoDup [u "Why so late?"].
Proof.
  apply (outcome_lists_have_no_duplicates
           (args [("text"%string, PStr repeated_text)])
           {| decisions := [u "We decided to wait."];
              action_items := [];
              open_questions := [u "Why so late?"] |}).
  vm_compute. reflexivity.
Defined.

(** C2, as amended. In every category the strings are listed, each
    once, in the order of their first matches, the matches being taken rule
    by rule in the order of the rules and from left to right within a
    rule; for the open questions, which have one rule, this is the order of
    first occurrence in the text. *)
Theorem outcomes_listed_by_rule_then_text text :
  lists_first_matches rule_le (decision_hits text) (extract_decisions text)
  /\ lists_first_matches rule_le (action_hits text)
       (extract_action_items text)
  /\ lists_first_matches text_le (question_hits text)
       (extract_questions text).
Proof.
  split_and!.
  - unfold extract_decisions. rewrite extract_with_clean.
    apply fold_lists_first_matches.
  - unfold extract_action_items. rewrite extract_with_clean.
    apply fold_lists_first_matches.
  - rewrite extract_questions_clean.
    destruct (fold_lists_first_matches stored_question MULTILINE
                [question_pattern] text) as (Hnd & Hmem & Hord).
    split_and!; [done..|].
    intros i j x y Hi Hj Hij.
    destruct (Hord i j x y Hi Hj Hij) as (hx & Hin & Hx & Hle).
    exists hx. split_and!; [done..|].
    intros hy Hy Hitem. destruct (Hle hy Hy Hitem) as [Hlt|[_ Hle']];
      [|done].
    exfalso. unfold question_hits in *. simpl in Hin, Hy.
    rewrite app_nil_r in Hin, Hy.
    pose proof (hits_of_rule_rule stored_question MULTILINE 0
                  question_pattern text) as Hr.
    rewrite Forall_forall in Hr.
    rewrite (Hr _ Hin), (Hr _ Hy) in Hlt. lia.
Qed.

(** C2, as stated, fails: the decision found by the first rule is
    listed first although the one found by the second rule stands earlier
    in the text. *)
Lemma decisions_not_in_text_order :
  extract_decisions label_then_verb
    = [u "We decided to stay."; u "Decision: go."]
  /\ ~ listed_by_first_match text_le (decision_hits label_then_verb)
         (extract_decisions label_then_verb).
Proof.
  split; [by vm_compute|].
  intros H.
  destruct (H 0%nat 1%nat (u "We decided to stay.") (u "Decision: go."))
    as (hx & Hin & Hx & Hle); [by vm_compute|by vm_compute|lia|].
  assert (Hhits : decision_hits label_then_verb
            = [ {| rule := 0; start := 14; item := u "We decided to stay." |};
                {| rule := 1; start := 0; item := u "Decision: go." |} ])
    by (by vm_compute).
  rewrite Hhits in Hin, Hle.
  specialize (Hle {| rule := 1; start := 0; item := u "Decision: go." |}).
  unfold text_le in Hle. simpl in Hle.
  apply elem_of_cons in Hin as [->|Hin].
  - simpl in Hle. assert (14 <= 0)%nat; [|lia].
    apply Hle; [|done]. apply elem_of_cons. right.
    apply elem_of_cons. by left.
  - apply list_elem_of_singleton in Hin. subst hx. simpl in Hx.
    vm_compute in Hx. discriminate.
Qed.

(** ** The ranking of [trim_context] *)

Lemma score_sentences_str sentences goal :
  score_sentences sentences (PStr goal) = Ok (omap (survivor goal) sentences).
Proof.
  induction sentences as [|s ss IH]; simpl; [done|].
  unfold survivor at 1. destruct (is_filler_sentence s); [done|].
  rewrite IH. simpl. by destruct (Qlt_le_dec 0 _).
Qed.

Lemma elem_of_insert_by_score x l y :
  y ∈ insert_by_score x l <-> y = x \/ y ∈ l.
Proof.
  induction l as [|z l IH]; simpl.
  - rewrite list_elem_of_singleton, elem_of_nil. tauto.
  - destruct (Qle_bool z.2 x.2).
    + by rewrite elem_of_cons.
    + rewrite !elem_of_cons, IH. tauto.
Qed.

Lemma insert_by_score_sorted x l :
  StronglySorted score_ge l -> StronglySorted score_ge (insert_by_score x l).
Proof.
  induction 1 as [|z l Hs IH Hall]; simpl.
  - repeat constructor.
  - destruct (Qle_bool z.2 x.2) eqn:Hle.
    + apply Qle_bool_iff in Hle. constructor; [by constructor|].
      constructor; [done|].
      eapply Forall_impl; [exact Hall|]. unfold score_ge. simpl.
      intros w Hw. by apply Qle_trans with z.2.
    + constructor; [done|]. apply Forall_forall. intros w Hw.
      apply elem_of_insert_by_score in Hw as [->|Hw].
      * unfold score_ge. apply Qlt_le_weak, Qnot_le_lt. intros Hzx.
        apply Qle_bool_iff in Hzx. congruence.
      * rewrite Forall_forall in Hall. by apply Hall.
Qed.

Lemma sort_by_score_sorted l : StronglySorted score_ge (sort_by_score l).
Proof.
  induction l as [|x l IH]; simpl; [constructor|].
  by apply insert_by_score_sorted.
Qed.

(** Stability: an element is put in front of those of its own score. *)
Lemma filter_insert_by_score q x l :
  List.filter (has_score q) (insert_by_score x l)
  = List.filter (has_score q) (x :: l).
Proof.
  induction l as [|z l IH]; [done|].
  cbn [insert_by_score]. destruct (Qle_bool z.2 x.2) eqn:Hle; [done|].
  cbn [List.filter] in *. rewrite IH.
  destruct (has_score q x) eqn:Hx; [|done].
  destruct (has_score q z) eqn:Hz; [|done].
  exfalso. unfold has_score in *.
  apply Qeq_bool_iff in Hx, Hz.
  assert (Hzx : (z.2 <= x.2)%Q) by (rewrite Hx, Hz; apply Qle_refl).
  apply Qle_bool_iff in Hzx. congruence.
Qed.

Lemma filter_sort_by_score q l :
  List.filter (has_score q) (sort_by_score l) = List.filter (has_score q) l.
Proof.
  induction l as [|x l IH]; [done|].
  cbn [sort_by_score foldr]. fold (sort_by_score l).
  rewrite filter_insert_by_score. cbn [List.filter]. by rewrite IH.
Qed.

Lemma slice_to_take {A} (l : list A) stop :
  exists n, slice_to l stop = take n l.
Proof. unfold slice_to. destruct (0 <=? stop)%Z; eauto. Qed.

Lemma slice_to_length {A} (l : list A) stop :
  (0 <= stop)%Z -> (Z.of_nat (length (slice_to l stop)) <= stop)%Z.
Proof.
  intros H. unfold slice_to.
  destruct (Z.leb_spec 0 stop); [|lia]. rewrite length_take. lia.
Qed.

Lemma filter_take_prefix {A} (p : A -> bool) n (l : list A) :
  List.filter p (take n l) `prefix_of` List.filter p l.
Proof.
  rewrite <- (take_drop n l) at 2. rewrite List.filter_app.
  apply prefix_app_r. done.
Qed.

Lemma survivor_Some goal s p :
  survivor goal s = Some p -> p = (s, calculate_relevance_score s goal).
Proof.
  unfold survivor. destruct (is_filler_sentence s); [done|].
  destruct (Qlt_le_dec 0 _); [|done]. by intros [= <-].
Qed.

Lemma filter_survivors goal q sentences :
  (List.filter (has_score q) (omap (survivor goal) sentences)).*1
  = List.filter
      (fun s => survives goal s
                && Qeq_bool (calculate_relevance_score s goal) q)
      sentences.
Proof.
  induction sentences as [|s ss IH]; [done|].
  cbn [omap list_omap List.filter]. unfold survives at 1.
  destruct (survivor goal s) as [p|] eqn:Hs; [|exact IH].
  apply survivor_Some in Hs as ->.
  unfold has_score at 1. cbn [List.filter andb snd].
  destruct (Qeq_bool _ q); [|exact IH].
  csimpl. by rewrite <- IH.
Qed.

(** The two ways [top_chunks] gets its value. *)
Lemma top_chunks_Ok arguments top :
  top_chunks arguments = Ok top ->
  exists max_chunks,
    py_int (get arguments "max_chunks" (PInt 5)) = Ok max_chunks
    /\ ((negb (truthy (get arguments "text" (PStr [])))
         || negb (truthy (get arguments "goal" (PStr []))) = true
         /\ top = [])
        \/ exists text scored,
             get arguments "text" (PStr []) = PStr text
             /\ score_sentences (split_into_sentences text)
                  (get arguments "goal" (PStr [])) = Ok scored
             /\ top = slice_to (sort_by_score scored) max_chunks).
Proof.
  unfold top_chunks. intros H.
  destruct (py_int _) as [z|e]; [|discriminate].
  exists z. split; [done|]. cbn in H.
  destruct (negb _ || negb _) eqn:Hempty.
  - left. by injection H as <-.
  - right. destruct (get arguments "text" (PStr [])); try discriminate.
    destruct (score_sentences _ _) as [scored|e] eqn:Hs; [|discriminate].
    cbn in H. injection H as <-. eauto.
Qed.

Lemma trim_context_Ok arguments r :
  trim_context arguments = Ok r ->
  exists top, top_chunks arguments = Ok top /\ r = format_chunks top.
Proof.
  unfold trim_context. destruct (top_chunks arguments) as [top|e];
    [|discriminate].
  cbn. intros [= <-]. by exists top.
Qed.



Lemma take_sorted {A} (R : relation A) n l :
  StronglySorted R l -> StronglySorted R (take n l).
Proof.
  intros Hs. rewrite <- (take_drop n l) in Hs.
  by apply StronglySorted_app_1_l in Hs.
Qed.



(** A bound that holds for the values the schema intends. *)
Lemma trim_context_length arguments max_chunks r :
  py_int (get arguments "max_chunks" (PInt 5)) = Ok max_chunks ->
  (0 <= max_chunks)%Z ->
  trim_context arguments = Ok r ->
  (Z.of_nat (length r) <= max_chunks)%Z.
Proof.
  intros Hint Hpos Hr.
  apply trim_context_Ok in Hr as (top & Htop & ->).
  apply top_chunks_Ok in Htop as (z & Hz & Htop).
  rewrite Hint in Hz. injection Hz as <-.
  unfold format_chunks. rewrite length_map.
  destruct Htop as [[_ ->]|(t & scored & _ & _ & ->)]; [simpl; lia|].
  by apply slice_to_length.
Qed.

(** ** Properties of the context trimmer *)

(** C1. With [max_chunks = -1] and two relevant sentences the call
    returns one chunk: the slice drops the last entry instead of
    returning nothing, so the result is neither empty nor within the
    bound. *)
Theorem negative_max_chunks_keeps_chunks :
  exists r,
    trim_context two_relevant_sentences = Ok r
    /\ r = [ {| text := u "Alpha beta.";
                reason := u "High relevance to goal (score: 1.00)" |} ]
    /\ (Z.of_nat (length r) > -1)%Z
    /\ r <> [].
Proof.
  eexists. split; [by vm_compute|]. split; [reflexivity|].
  split; [simpl; lia|done].
Qed.








(** C7. The (sentence, score) pairs behind a result are sorted by
    score, highest first, and the sort is stable: for every score, the
    selected sentences with that score are the first of the surviving
    sentences with that score, in the order of the text. *)
Theorem selected_chunks_sorted_stably arguments r :
  trim_context arguments = Ok r ->
  exists top,
    top_chunks arguments = Ok top
    /\ r = format_chunks top
    /\ StronglySorted score_ge top
    /\ forall t g q,
         get arguments "text" (PStr []) = PStr t ->
         get arguments "goal" (PStr []) = PStr g ->
         (List.filter (has_score q) top).*1
         `prefix_of`
         List.filter
           (fun s => survives g s
                     && Qeq_bool (calculate_relevance_score s g) q)
           (split_into_sentences t).
Proof.
  intros Hr. apply trim_context_Ok in Hr as (top & Htop & ->).
  exists top. split_and!; [done..| |];
    apply top_chunks_Ok in Htop as (z & _ & Htop);
    destruct Htop as [[_ ->]|(t' & scored & Ht & Hs & ->)].
  - constructor.
  - destruct (slice_to_take (sort_by_score scored) z) as [n ->].
    apply take_sorted, sort_by_score_sorted.
  - intros. apply prefix_nil.
  - destruct (slice_to_take (sort_by_score scored) z) as [n ->].
    intros t g q Ht' Hg. rewrite Ht in Ht'. injection Ht' as ->.
    rewrite Hg, score_sentences_str in Hs. injection Hs as <-.
    rewrite <- filter_survivors.
    rewrite <- (filter_sort_by_score q (omap _ _)).
    destruct (filter_take_prefix (has_score q) n
                (sort_by_score (omap (survivor g) (split_into_sentences t))))
      as [k ->].
    rewrite fmap_app. by apply prefix_app_r.
Qed.

Lemma selected_chunks_sorted_stably_witness :
  exists top,
    top_chunks tied_call = Ok top
    /\ tied_result = format_chunks top
    /\ StronglySorted score_ge top
    /\ (List.filter (has_score (1 # 2)) top).*1
       `prefix_of` [u "Alpha one."; u "Alpha two."; u "Alpha three."].
Proof.
  destruct (selected_chunks_sorted_stably tied_call tied_result)
    as (top & Htop & Hr & Hsorted & Hstable).
  - vm_compute. reflexivity.
  - exists top. split_and!; [done..|].
    apply (Hstable
             (u "Alpha one. Beta alpha beta. Alpha two. Alpha three.")
             (u "alpha beta") (1 # 2)%Q).
    + vm_compute. reflexivity.
    + vm_compute. reflexivity.
Defined.

(** ** The relevance score *)



(** ** The filler classifier *)

Lemma filler_patterns_groups :
  filler_patterns
  = List.map (fun g => Cat Bol (alts (List.map lit_str g))) lead_in_groups.
Proof. reflexivity. Qed.

Lemma rmatch_lit_str w prev s :
  is_Some (rmatch NOFLAGS (lit_str w) prev s accept) <-> w `prefix_of` s.
Proof.
  revert prev s. induction w as [|c w IH]; intros prev s; simpl.
  - split; [intros _; apply prefix_nil|by eexists].
  - destruct s as [|d s].
    + split; [by intros [? ?]|]. intros H. by apply prefix_nil_not in H.
    + unfold lit_matches. simpl. destruct (N.eqb_spec d c) as [->|Hne].
      * rewrite IH. split; [apply prefix_cons|].
        intros H. by apply prefix_cons_inv_2 in H.
      * split; [by intros [? ?]|]. intros H.
        apply prefix_cons_inv_1 in H. congruence.
Qed.

Lemma rmatch_alts f rs prev s k :
  rs <> [] ->
  is_Some (rmatch f (alts rs) prev s k)
  <-> exists r, r ∈ rs /\ is_Some (rmatch f r prev s k).
Proof.
  induction rs as [|r rs IH]; [done|]. intros _.
  destruct rs as [|r' rs].
  - simpl. split.
    + intros H. exists r. split; [apply elem_of_cons; by left|done].
    + intros (r0 & Hin & H). apply list_elem_of_singleton in Hin. by subst.
  - change (alts (r :: r' :: rs)) with (Alt r (alts (r' :: rs))).
    cbn [rmatch]. destruct (rmatch f r prev s k) as [x|] eqn:Hr.
    + split; [|by eexists]. intros _. exists r.
      split; [apply elem_of_cons; by left|]. rewrite Hr. by eexists.
    + rewrite IH by done. split.
      * intros (r0 & Hin & H). exists r0.
        split; [apply elem_of_cons; by right|done].
      * intros (r0 & Hin & H). apply elem_of_cons in Hin as [->|Hin].
        -- rewrite Hr in H. by destruct H.
        -- by exists r0.
Qed.

Lemma re_match_group g s :
  g <> [] ->
  re_match NOFLAGS (Cat Bol (alts (List.map lit_str g))) s = true
  <-> exists w, w ∈ g /\ w `prefix_of` s.
Proof.
  intros Hg. unfold re_match, match_at. cbn [rmatch at_bol andb].
  fold accept.
  assert (Hne : List.map lit_str g <> []) by (by destruct g).
  pose proof (rmatch_alts NOFLAGS (List.map lit_str g) None s accept Hne)
    as Halts.
  destruct (rmatch NOFLAGS (alts _) None s accept) as [x|].
  - split; [|done]. intros _.
    destruct (proj1 Halts) as (r & Hin & Hr); [by eexists|].
    apply list_elem_of_In, in_map_iff in Hin as (w & <- & Hin).
    exists w. split; [by apply list_elem_of_In|].
    by apply rmatch_lit_str in Hr.
  - split; [done|]. intros (w & Hin & Hpre).
    destruct (proj2 Halts) as [? ?]; [|done].
    exists (lit_str w). split.
    + apply list_elem_of_In, in_map, list_elem_of_In, Hin.
    + by apply rmatch_lit_str.
Qed.

(** A sentence is filler exactly when its lowercased, stripped form
    starts with the characters of a lead-in. *)
Lemma is_filler_sentence_prefix sentence :
  is_filler_sentence sentence = true
  <-> exists w, w ∈ lead_ins /\ w `prefix_of` strip (lower sentence).
Proof.
  unfold is_filler_sentence. rewrite filler_patterns_groups.
  rewrite existsb_exists. unfold lead_ins. split.
  - intros (p & Hp & Hm). apply in_map_iff in Hp as (g & <- & Hg).
    assert (Hne : g <> []).
    { intros ->. revert Hg. unfold lead_in_groups.
      rewrite <- list_elem_of_In, !elem_of_cons, elem_of_nil.
      intros H. repeat destruct H as [H|H]; done. }
    apply re_match_group in Hm as (w & Hw & Hpre); [|done].
    exists w. split; [|done]. apply list_elem_of_In, in_concat.
    exists g. split; [done|]. by apply list_elem_of_In.
  - intros (w & Hw & Hpre).
    apply list_elem_of_In, in_concat in Hw as (g & Hg & Hw).
    exists (Cat Bol (alts (List.map lit_str g))). split.
    + apply in_map_iff. by exists g.
    + apply re_match_group; [by intros ->|].
      exists w. split; [by apply list_elem_of_In|done].
Qed.

Lemma score_sentences_not_filler sentences goal scored x :
  score_sentences sentences goal = Ok scored ->
  x ∈ scored -> is_filler_sentence x.1 = false.
Proof.
  revert scored. induction sentences as [|s ss IH]; intros scored; simpl.
  - intros [= <-] Hx. by apply elem_of_nil in Hx.
  - destruct (is_filler_sentence s) eqn:Hf; [apply IH|].
    destruct goal; try discriminate.
    destruct (score_sentences ss _) as [later|]; [|discriminate].
    cbn. intros [= <-] Hx.
    destruct (Qlt_le_dec 0 _); [|by apply (IH later)].
    apply elem_of_cons in Hx as [->|Hx]; [done|by apply (IH later)].
Qed.

Lemma selected_not_filler arguments r c :
  trim_context arguments = Ok r -> c ∈ r ->
  is_filler_sentence (text c) = false.
Proof.
  intros Hr Hc. apply trim_context_Ok in Hr as (top & Htop & ->).
  apply top_chunks_Ok in Htop as (z & _ & Htop).
  destruct Htop as [[_ ->]|(t & scored & _ & Hs & ->)].
  { by apply elem_of_nil in Hc. }
  destruct (slice_to_take (sort_by_score scored) z) as [n Hn].
  rewrite Hn in Hc. unfold format_chunks in Hc.
  apply list_elem_of_In, in_map_iff in Hc as ([s q] & <- & Hin).
  apply list_elem_of_In in Hin.
  apply (score_sentences_not_filler _ _ _ (s, q) Hs).
  apply elem_of_take in Hin as (i & Hi & _).
  apply list_elem_of_lookup_2 in Hi.
  unfold sort_by_score in Hi. clear -Hi.
  induction scored as [|y l IH]; simpl in Hi; [done|].
  apply elem_of_insert_by_score in Hi as [->|Hi];
    [apply elem_of_cons; by left|apply elem_of_cons; right; by apply IH].
Qed.

(** C10. A sentence whose lowercased, stripped form starts with the
    characters of a lead-in is filler, whatever follows them, and no
    result of [trim_context] holds it. *)
Theorem filler_by_raw_prefix sentence lead :
  lead ∈ lead_ins ->
  lead `prefix_of` strip (lower sentence) ->
  is_filler_sentence sentence = true
  /\ forall arguments r c,
       trim_context arguments = Ok r -> c ∈ r -> text c <> sentence.
Proof.
  intros Hlead Hpre.
  assert (Hf : is_filler_sentence sentence = true).
  { apply is_filler_sentence_prefix. by exists lead. }
  split; [done|]. intros arguments r c Hr Hc Heq.
  apply (selected_not_filler _ _ _ Hr) in Hc. congruence.
Qed.

Lemma filler_by_raw_prefix_witness :
  is_filler_sentence (u "High latency blocks the release.") = true
  /\ forall arguments r c,
       trim_context arguments = Ok r -> c ∈ r ->
       text c <> u "High latency blocks the release.".
Proof.
  apply (filler_by_raw_prefix (u "High latency blocks the release.")
           (u "hi")).
  - vm_compute. apply list_elem_of_here.
  - exists (u "gh latency blocks the release."). vm_compute. reflexivity.
Defined.

(** ** The question rule *)

Lemma not_terminator_matches c :
  cset_matches MULTILINE (NotChars (u ".!?" ++ [NL])) c
  = negb (is_terminator c).
Proof.
  unfold is_terminator. cbn. unfold lit_matches. cbn.
  by rewrite orb_false_r, !orb_assoc.
Qed.

Lemma question_star fuel prev s :
  (length s <= fuel)%nat ->
  star_loop (rmatch MULTILINE not_terminator)
    (fun p' s' => rmatch MULTILINE (lit "?") p' s' accept) fuel prev s
  = question_end s.
Proof.
  revert prev s. induction fuel as [|n IH]; intros prev s Hlen.
  - destruct s; [done|simpl in Hlen; lia].
  - destruct s as [|c s]; [done|].
    cbn [star_loop]. unfold not_terminator at 1. cbn [rmatch].
    rewrite not_terminator_matches.
    cbn [question_end]. unfold QUESTION_MARK.
    change (rmatch MULTILINE (lit "?") prev (c :: s) accept)
      with (if lit_matches MULTILINE 63 c then accept (Some c) s else None).
    unfold lit_matches. cbn [ignorecase MULTILINE andb].
    destruct (c =? 63) eqn:Hq.
    + assert (is_terminator c = true) as ->
        by (unfold is_terminator; by rewrite Hq, !orb_true_r).
      done.
    + destruct (is_terminator c); [done|]. cbn [negb].
      destruct (Nat.ltb_spec (length s) (length (c :: s)));
        [|simpl in *; lia].
      rewrite IH by (simpl in Hlen; lia).
      by destruct (question_end s).
Qed.

Lemma question_match_at prev s :
  match_at MULTILINE question_pattern false prev s = question_end s.
Proof.
  unfold match_at, question_pattern. cbn [rmatch andb].
  by apply question_star.
Qed.

Lemma question_end_Some s rest :
  question_end s = Some rest ->
  exists run, s = run ++ QUESTION_MARK :: rest
              /\ Forall (fun c => is_terminator c = false) run.
Proof.
  revert rest. induction s as [|c s IH]; intros rest; [done|]. simpl.
  destruct (N.eqb_spec c QUESTION_MARK) as [->|Hc].
  - intros [= <-]. by exists [].
  - destruct (is_terminator c) eqn:Ht; [done|]. intros H.
    destruct (IH _ H) as (run & -> & Hrun).
    exists (c :: run). split; [done|]. by constructor.
Qed.

Lemma question_runs_discard cur s :
  question_end s = None -> question_runs cur s = question_runs [] s.
Proof.
  revert cur. induction s as [|c s IH]; intros cur; [done|]. simpl.
  destruct (c =? QUESTION_MARK); [done|].
  destruct (is_terminator c); [done|].
  intros H. by rewrite (IH [c]), (IH (c :: cur)).
Qed.

Lemma question_runs_run cur run rest :
  Forall (fun c => is_terminator c = false) run ->
  question_runs cur (run ++ QUESTION_MARK :: rest)
  = (rev cur ++ run ++ [QUESTION_MARK]) :: question_runs [] rest.
Proof.
  intros Hrun. revert cur. induction Hrun as [|c run Hc Hrun IH];
    intros cur.
  - done.
  - simpl. assert ((c =? QUESTION_MARK) = false) as ->.
    { apply N.eqb_neq. intros ->. done. }
    rewrite Hc, IH. simpl. by rewrite <- app_assoc.
Qed.

(** The matches of the question rule are the runs that end in [?]. *)
Lemma question_scan s : forall prev n,
  (n <= length s)%nat ->
  omap matched_text (scan MULTILINE question_pattern prev s n)
  = question_runs [] (drop n s).
Proof.
  induction s as [|c s IH]; intros prev n Hn.
  - destruct n; [|simpl in Hn; lia]. cbn [scan].
    by rewrite question_match_at.
  - destruct n as [|n]; [|apply IH; simpl in Hn; lia].
    cbn [scan drop]. rewrite question_match_at.
    destruct (question_end (c :: s)) as [rest|] eqn:Hend.
    + destruct (question_end_Some _ _ Hend) as (run & Hs & Hrun).
      assert (Hruns : question_runs [] (c :: s)
                = (run ++ [QUESTION_MARK]) :: question_runs [] rest)
        by (rewrite Hs; by apply (question_runs_run [])).
      assert (Hsplit : c :: s = (run ++ [QUESTION_MARK]) ++ rest)
        by (by rewrite <- app_assoc).
      assert (Hlen1 : length (run ++ [QUESTION_MARK]) = S (length run))
        by (rewrite length_app; simpl; lia).
      assert (Htake : take (S (length run)) (c :: s)
                = run ++ [QUESTION_MARK])
        by (rewrite Hsplit; by apply take_app_length').
      assert (Hdrop : drop (length run) s = rest).
      { change (drop (S (length run)) (c :: s) = rest).
        rewrite Hsplit. by apply drop_app_length'. }
      assert (Hlen : (length (c :: s) - length rest = S (length run))%nat)
        by (rewrite Hsplit, length_app; lia).
      rewrite Hlen, Hruns, Htake. cbn [omap list_omap matched_text].
      f_equal. rewrite IH; [by rewrite Hdrop|].
      apply (f_equal length) in Hsplit. rewrite length_app in Hsplit.
      simpl in Hsplit. lia.
    + cbn [omap list_omap matched_text]. rewrite IH by lia.
      cbn [drop]. simpl in Hend. simpl.
      destruct (c =? QUESTION_MARK); [done|].
      destruct (is_terminator c); [done|].
      cbn [drop]. symmetry. by apply question_runs_discard.
Qed.

Lemma finditer_question text :
  finditer MULTILINE question_pattern text = question_runs [] text.
Proof. unfold finditer. by rewrite question_scan by lia. Qed.

(** [extract_questions] in the words of the specification: the runs that
    end in [?], trimmed, those longer than 5 cleaned of a leading marker,
    each kept once. *)
Lemma extract_questions_runs text :
  extract_questions text
  = fold_left push_new (omap stored_question (question_runs [] text)) [].
Proof.
  rewrite extract_questions_clean. simpl.
  by rewrite fold_add_clean, finditer_question.
Qed.

(** C4. A question behind a bullet character keeps its bullet: the set
    of the clean-up pattern holds U+00E2, U+20AC and U+00A2 where the
    bullet U+2022 was meant, while a dash in the same place is removed. *)
Theorem bullet_is_not_stripped :
  extract_questions bulleted_question = [bulleted_question]
  /\ extract_questions (u "- Is it ok?") = [u "Is it ok?"]
  /\ BULLET ∉ marker_chars.
Proof.
  split_and!; [by vm_compute..|].
  unfold marker_chars. vm_compute (u "-*" ++ _).
  rewrite !elem_of_cons, elem_of_nil. unfold BULLET.
  intros H. repeat destruct H as [H|H]; done.
Qed.

(** ** Trimming whitespace *)

Lemma lstrip_suffix s : lstrip s `suffix_of` s.
Proof.
  induction s as [|c s IH]; simpl; [done|].
  destruct (isspace c); [by apply suffix_cons_r|done].
Qed.

Lemma lstrip_head s c t : lstrip s = c :: t -> isspace c = false.
Proof.
  induction s as [|d s IH]; simpl; [done|].
  destruct (isspace d) eqn:Hd; [done|]. by intros [= <- _].
Qed.

Lemma lstrip_app_nonspace l c r :
  isspace c = false -> lstrip (l ++ c :: r) = lstrip l ++ c :: r.
Proof.
  intros Hc. induction l as [|d l IH]; simpl; [by rewrite Hc|].
  by destruct (isspace d).
Qed.

Lemma lstrip_nonspace c t : isspace c = false -> lstrip (c :: t) = c :: t.
Proof. simpl. by intros ->. Qed.

Lemma rstrip_prefix s : rstrip s `prefix_of` s.
Proof.
  unfold rstrip. destruct (lstrip_suffix (rev s)) as [k Hk].
  exists (rev k). rewrite <- rev_app_distr, <- Hk. by rewrite rev_involutive.
Qed.

Lemma rstrip_snoc_nonspace w c :
  isspace c = false -> rstrip (w ++ [c]) = w ++ [c].
Proof.
  intros Hc. unfold rstrip. rewrite rev_app_distr. simpl. rewrite Hc.
  simpl. by rewrite rev_involutive.
Qed.

Lemma rstrip_last s w c : rstrip s = w ++ [c] -> isspace c = false.
Proof.
  unfold rstrip. intros H. apply (f_equal (@rev char)) in H.
  rewrite rev_involutive, rev_app_distr in H. simpl in H.
  by apply lstrip_head in H.
Qed.

Lemma strip_substring s : substring (strip s) s.
Proof.
  unfold strip. destruct (lstrip_suffix s) as [a Ha].
  destruct (rstrip_prefix (lstrip s)) as [b Hb].
  exists a, b. by rewrite <- Hb.
Qed.

(** A string that ends in a character that is not whitespace keeps its
    end when it is stripped. *)
Lemma strip_snoc_nonspace w c :
  isspace c = false -> strip (w ++ [c]) = lstrip w ++ [c].
Proof.
  intros Hc. unfold strip. rewrite lstrip_app_nonspace by done.
  by apply rstrip_snoc_nonspace.
Qed.

(** What [strip] returns has no whitespace at either end. *)
Lemma strip_ends s :
  strip s = []
  \/ exists c w d, isspace c = false /\ isspace d = false
       /\ (strip s = [c] /\ c = d \/ strip s = c :: w ++ [d]).
Proof.
  destruct (strip s) as [|c t] eqn:Hs; [by left|]. right.
  assert (Hc : isspace c = false).
  { unfold strip in Hs. destruct (rstrip_prefix (lstrip s)) as [k Hk].
    rewrite Hs in Hk. by apply lstrip_head in Hk. }
  destruct t as [|d t _] using rev_ind.
  - exists c, [], c. split_and!; [done..|]. by left.
  - exists c, t, d. split_and!; [done| |by right].
    unfold strip in Hs. by apply (rstrip_last (lstrip s) (c :: t) d).
Qed.

Lemma strip_strip s : strip (strip s) = strip s.
Proof.
  destruct (strip_ends s) as [->|(c & w & d & Hc & Hd & [[-> ->]| ->])];
    [done| |].
  - exact (strip_snoc_nonspace [] d Hd).
  - rewrite app_comm_cons, strip_snoc_nonspace by done.
    by rewrite lstrip_nonspace.
Qed.

Lemma substring_trans x y z : substring x y -> substring y z -> substring x z.
Proof.
  intros (a & b & ->) (a' & b' & ->). exists (a' ++ a), (b ++ b').
  by rewrite <- !app_assoc.
Qed.

Lemma suffix_substring (x y : str) : x `suffix_of` y -> substring x y.
Proof. intros [k ->]. exists k, []. by rewrite app_nil_r. Qed.

Lemma prefix_substring (x y : str) : x `prefix_of` y -> substring x y.
Proof. intros [k ->]. by exists [], k. Qed.

(** ** Where a match ends *)

Lemma last_char_app prev w1 w2 :
  last_char (last_char prev w1) w2 = last_char prev (w1 ++ w2).
Proof.
  unfold last_char. rewrite last_app. by destruct (last w2).
Qed.

Lemma last_char_snoc prev w c : last_char prev (w ++ [c]) = Some c.
Proof. unfold last_char. by rewrite last_snoc. Qed.

(** The continuation is called at a position of the text, with the
    character that stands before that position. *)
Lemma star_loop_position (body : matcher) k fuel :
  (forall prev s k' rest,
      body prev s k' = Some rest ->
      exists w s', s = w ++ s' /\ k' (last_char prev w) s' = Some rest) ->
  forall prev s rest,
    star_loop body k fuel prev s = Some rest ->
    exists w s', s = w ++ s' /\ k (last_char prev w) s' = Some rest.
Proof.
  intros Hbody. induction fuel as [|n IH]; intros prev s rest; simpl.
  - intros H. by exists [], s.
  - destruct (body prev s _) as [x|] eqn:Hb.
    + intros [= ->]. apply Hbody in Hb as (w1 & s1 & -> & Hk).
      destruct (length s1 <? length (w1 ++ s1))%nat; [|done].
      apply IH in Hk as (w2 & s2 & -> & Hk).
      exists (w1 ++ w2), s2. split; [by rewrite app_assoc|].
      by rewrite <- last_char_app.
    + intros H. by exists [], s.
Qed.

Lemma rmatch_position f r : forall prev s k rest,
  rmatch f r prev s k = Some rest ->
  exists w s', s = w ++ s' /\ k (last_char prev w) s' = Some rest.
Proof.
  induction r as [|p|cs| |cs|r1 IH1 r2 IH2|r1 IH1 r2 IH2|r1 IH1|r1 IH1
                  |r1 IH1]; intros prev s k rest; cbn [rmatch].
  - intros H. by exists [], s.
  - destruct s as [|c s]; [done|]. destruct (lit_matches f p c); [|done].
    intros H. by exists [c], s.
  - destruct s as [|c s]; [done|]. destruct (cset_matches f cs c); [|done].
    intros H. by exists [c], s.
  - destruct (at_bol f prev); [|done]. intros H. by exists [], s.
  - destruct prev as [c|]; [|done].
    destruct (cset_matches f cs c); [|done]. intros H. by exists [], s.
  - intros H. apply IH1 in H as (w1 & s1 & -> & H).
    apply IH2 in H as (w2 & s2 & -> & H).
    exists (w1 ++ w2), s2. split; [by rewrite app_assoc|].
    by rewrite <- last_char_app.
  - destruct (rmatch f r1 prev s k) eqn:H1.
    + intros [= ->]. by apply IH1 in H1.
    + apply IH2.
  - destruct (rmatch f r1 prev s k) eqn:H1.
    + intros [= ->]. by apply IH1 in H1.
    + intros H. by exists [], s.
  - apply star_loop_position, IH1.
  - intros H. apply IH1 in H as (w1 & s1 & -> & H).
    apply (star_loop_position _ _ _ IH1) in H as (w2 & s2 & -> & H).
    exists (w1 ++ w2), s2. split; [by rewrite app_assoc|].
    by rewrite <- last_char_app.
Qed.

(** A pattern that ends in a character set matches a text that ends in a
    character of the set. *)
Lemma rmatch_ends_in f cs r :
  ends_in cs r ->
  forall prev s k rest,
    rmatch f r prev s k = Some rest ->
    exists w c s', s = w ++ c :: s' /\ cset_matches f cs c = true
                   /\ k (Some c) s' = Some rest.
Proof.
  induction 1 as [|r1 r2 He IH]; intros prev s k rest; cbn [rmatch].
  - destruct s as [|c s]; [done|].
    destruct (cset_matches f cs c) eqn:Hc; [|done].
    intros H. by exists [], c, s.
  - intros H. apply rmatch_position in H as (w1 & s1 & -> & H).
    apply IH in H as (w2 & c & s2 & -> & Hc & H).
    exists (w1 ++ w2), c, s2. by rewrite <- app_assoc.
Qed.

(** The text of a match, from what [match_at] leaves. *)
Lemma match_at_text f r b prev s rest :
  match_at f r b prev s = Some rest ->
  s = take (length s - length rest) s ++ rest.
Proof.
  intros H. apply match_at_suffix in H as [[w ->] _].
  rewrite length_app.
  replace (length w + length rest - length rest)%nat with (length w) by lia.
  by rewrite take_app_length.
Qed.

Lemma match_at_ends_in f cs r b prev s rest :
  ends_in cs r ->
  match_at f r b prev s = Some rest ->
  exists w c, take (length s - length rest) s = w ++ [c]
              /\ cset_matches f cs c = true.
Proof.
  intros He H. unfold match_at in H.
  apply (rmatch_ends_in _ _ _ He) in H as (w & c & s' & -> & Hc & H).
  assert (rest = s') as ->.
  { destruct (b && _); [done|]. by injection H as <-. }
  exists w, c. split; [|done].
  rewrite length_app. simpl.
  replace (length w + S (length s') - length s')%nat
    with (length (w ++ [c])) by (rewrite length_app; simpl; lia).
  change (w ++ c :: s') with (w ++ [c] ++ s').
  by rewrite app_assoc, take_app_length.
Qed.

(** Every match the search loop reports is what one attempt matched
    somewhere in the text. *)
Lemma scan_matched f r s : forall prev n m,
  Matched m ∈ scan f r prev s n ->
  exists b prev' s' rest,
    s' `suffix_of` s /\ match_at f r b prev' s' = Some rest
    /\ m = take (length s' - length rest) s'.
Proof.
  induction s as [|c s IH]; intros prev n m.
  - destruct n; cbn [scan]; [|by intros ?%elem_of_nil].
    destruct (match_at f r false prev []) as [rest|] eqn:Hm;
      [|by intros ?%elem_of_nil].
    intros [= ->]%list_elem_of_singleton.
    exists false, prev, [], rest. split_and!; [done..|].
    by destruct (length [] - length rest)%nat.
  - assert (Hrec : forall p k,
              Matched m ∈ scan f r p s k ->
              exists b prev' s' rest,
                s' `suffix_of` c :: s /\ match_at f r b prev' s' = Some rest
                /\ m = take (length s' - length rest) s').
    { intros p k H. apply IH in H as (b & p' & s' & rest & Hs & H).
      exists b, p', s', rest. split; [by apply suffix_cons_r|done]. }
    destruct n as [|n]; cbn [scan]; [|apply Hrec].
    destruct (match_at f r false prev (c :: s)) as [rest|] eqn:Hm.
    + destruct (length (c :: s) - length rest)%nat as [|k] eqn:Hlen.
      * intros [[= ->]|H]%elem_of_cons.
        { exists false, prev, (c :: s), rest. split_and!; [done..|].
          by rewrite Hlen. }
        destruct (match_at f r true prev (c :: s)) as [rest2|] eqn:Hm2.
        -- apply elem_of_cons in H as [[= ->]|H]; [|by eapply Hrec].
           by exists true, prev, (c :: s), rest2.
        -- apply elem_of_cons in H as [[=]|H]. by eapply Hrec.
      * intros [[= ->]|H]%elem_of_cons; [|by eapply Hrec].
        exists false, prev, (c :: s), rest. split_and!; [done..|].
        by rewrite Hlen.
    + intros [[=]|H]%elem_of_cons. by eapply Hrec.
Qed.

Lemma elem_of_finditer f r text m :
  m ∈ finditer f r text <-> Matched m ∈ scan f r None text 0.
Proof.
  unfold finditer. rewrite list_elem_of_omap. split.
  - intros ([c|m'] & Hin & H); [done|]. by injection H as ->.
  - intros H. by exists (Matched m).
Qed.

(** A match is a run of consecutive characters of the text. *)
Lemma finditer_substring f r text m :
  m ∈ finditer f r text -> substring m text.
Proof.
  intros H. apply elem_of_finditer, scan_matched in H
    as (b & p & s' & rest & Hs & Hm & ->).
  apply substring_trans with s'; [|by apply suffix_substring].
  apply prefix_substring. exists rest. by apply match_at_text in Hm.
Qed.

Lemma finditer_ends_in f cs r text m :
  ends_in cs r -> m ∈ finditer f r text ->
  exists w c, m = w ++ [c] /\ cset_matches f cs c = true.
Proof.
  intros He H. apply elem_of_finditer, scan_matched in H
    as (b & p & s' & rest & Hs & Hm & ->).
  by apply (match_at_ends_in _ _ _ _ _ _ _ He) in Hm.
Qed.

(** What the extractors store comes from a match of one of their rules. *)
Lemma elem_of_extract_with patterns text x :
  x ∈ extract_with patterns text <->
  exists pattern m,
    pattern ∈ patterns /\ m ∈ finditer IGNORECASE_MULTILINE pattern text
    /\ stored m = Some x.
Proof.
  rewrite extract_with_clean, fold_patterns, elem_of_fold_push_new.
  split.
  - intros [[]%elem_of_nil|H].
    apply list_elem_of_In, in_flat_map in H as (p & Hp & H).
    apply list_elem_of_In, list_elem_of_omap in H as (m & Hm & Hx).
    exists p, m. by rewrite list_elem_of_In.
  - intros (p & m & Hp & Hm & Hx). right.
    apply list_elem_of_In, in_flat_map. exists p.
    split; [by apply list_elem_of_In|].
    apply list_elem_of_In, list_elem_of_omap. by exists m.
Qed.

Lemma elem_of_extract_questions text x :
  x ∈ extract_questions text <->
  exists m, m ∈ question_runs [] text /\ stored_question m = Some x.
Proof.
  rewrite extract_questions_runs, elem_of_fold_push_new.
  rewrite elem_of_nil, list_elem_of_omap. tauto.
Qed.

Lemma stored_Some m x : stored m = Some x -> x = strip m /\ x <> [].
Proof.
  unfold stored. destruct (strip m) eqn:Hs; simpl; [done|].
  by intros [= <-].
Qed.

(** ** The clean-up of a question *)

(** [\s*] before a rest of the pattern that cannot start with whitespace,
    or that accepts where the whitespace ends: all the whitespace is
    taken. *)
Lemma star_ws_greedy f (k : kont) fuel : forall prev s,
  (forall p p' x, k p x = k p' x) ->
  (length s <= fuel)%nat ->
  is_Some (k prev (lstrip s))
  \/ (forall c x, isspace c = true -> k prev (c :: x) = None) ->
  star_loop (rmatch f ws) k fuel prev s = k prev (lstrip s).
Proof.
  induction fuel as [|n IH]; intros prev s Hk Hlen Hcase.
  - destruct s; [done|simpl in Hlen; lia].
  - destruct s as [|c s]; [done|].
    cbn [star_loop]. unfold ws at 1. cbn [rmatch cset_matches lstrip].
    destruct (isspace c) eqn:Hc; [|done].
    destruct (Nat.ltb_spec (length s) (length (c :: s)));
      [|simpl in *; lia].
    rewrite IH; [|done|simpl in Hlen; lia|].
    + rewrite (Hk (Some c) prev).
      destruct (k prev (lstrip s)) eqn:Hks; [done|].
      destruct Hcase as [[? Hsome]|Hnone]; [|by rewrite Hnone].
      simpl in Hsome. rewrite Hc, Hks in Hsome. done.
    + destruct Hcase as [Hsome|Hnone].
      * left. simpl in Hsome. rewrite Hc in Hsome.
        by rewrite (Hk (Some c) prev).
      * right. intros d x Hd. rewrite (Hk (Some c) prev). by apply Hnone.
Qed.

Lemma chars_matches c l :
  cset_matches NOFLAGS (Chars l) c = bool_decide (c ∈ l).
Proof.
  induction l as [|p l IH]; [done|]. cbn [cset_matches existsb] in *.
  rewrite IH. unfold lit_matches. cbn [ignorecase NOFLAGS andb].
  destruct (N.eqb_spec c p) as [->|Hne].
  - symmetry. apply bool_decide_eq_true_2, list_elem_of_here.
  - simpl. apply bool_decide_ext. rewrite elem_of_cons. tauto.
Qed.

Lemma marker_not_space c : is_marker c = true -> isspace c = false.
Proof.
  unfold is_marker. intros H%bool_decide_eq_true_1. revert H.
  unfold marker_chars. vm_compute (u "-*" ++ _).
  rewrite !elem_of_cons, elem_of_nil.
  intros H. repeat destruct H as [H|H]; by subst.
Qed.

(** What the clean-up pattern matches at the start of a string. *)
Lemma marker_match_at s :
  match_at NOFLAGS marker_pattern false None s
  = match lstrip s with
    | c :: t => if is_marker c then Some (lstrip t) else None
    | [] => None
    end.
Proof.
  unfold match_at, marker_pattern. cbn [seq rmatch at_bol andb].
  rewrite star_ws_greedy; [| |done|].
  - destruct (lstrip s) as [|c t]; [done|]. cbn [rmatch].
    rewrite chars_matches. fold (is_marker c).
    destruct (is_marker c); [|done].
    rewrite star_ws_greedy; [done|done|done|by left].
  - intros p p' x. by destruct x.
  - right. intros c x Hc. cbn [rmatch]. rewrite chars_matches.
    fold (is_marker c). destruct (is_marker c) eqn:Hm; [|done].
    apply marker_not_space in Hm. congruence.
Qed.

(** Behind the start of the string the pattern matches nowhere. *)
Lemma marker_scan_rest s : forall c0 n,
  (n <= length s)%nat ->
  omap unmatched_char (scan NOFLAGS marker_pattern (Some c0) s n)
  = drop n s.
Proof.
  induction s as [|c s IH]; intros c0 n Hn.
  - by destruct n; [|simpl in Hn; lia].
  - destruct n as [|n]; [|apply IH; simpl in Hn; lia].
    cbn [scan drop]. unfold match_at at 1, marker_pattern at 1.
    cbn [seq rmatch at_bol NOFLAGS multiline andb].
    cbn [omap list_omap unmatched_char]. by rewrite IH by lia.
Qed.

Lemma drop_suffix (rest s : str) :
  rest `suffix_of` s -> drop (length s - length rest) s = rest.
Proof.
  intros [k ->]. rewrite length_app.
  replace (length k + length rest - length rest)%nat with (length k) by lia.
  by rewrite drop_app_length.
Qed.

Lemma re_sub_marker s :
  re_sub_empty NOFLAGS marker_pattern s = strip_marker s.
Proof.
  unfold re_sub_empty, strip_marker. fold unmatched_char.
  destruct s as [|c s]; [done|].
  cbn [scan]. rewrite marker_match_at.
  destruct (lstrip (c :: s)) as [|c1 t] eqn:Hl.
  { cbn [omap list_omap unmatched_char]. by rewrite marker_scan_rest by lia. }
  destruct (is_marker c1).
  - assert (Hsuf : lstrip t `suffix_of` c :: s).
    { etrans; [apply lstrip_suffix|]. etrans; [by apply suffix_cons_r|].
      rewrite <- Hl. apply lstrip_suffix. }
    assert (Hlt : (length (lstrip t) < length (c :: s))%nat).
    { pose proof (suffix_length _ _ (lstrip_suffix t)).
      pose proof (suffix_length _ _ (lstrip_suffix (c :: s))) as H2.
      rewrite Hl in H2. simpl in *. lia. }
    destruct (length (c :: s) - length (lstrip t))%nat as [|k] eqn:Hk;
      [lia|].
    cbn [omap list_omap unmatched_char].
    rewrite marker_scan_rest by (simpl in *; lia).
    change (drop k s) with (drop (S k) (c :: s)).
    rewrite <- Hk. by apply drop_suffix.
  - cbn [omap list_omap unmatched_char]. by rewrite marker_scan_rest by lia.
Qed.

(** ** What the extractors store *)

Lemma lstrip_lstrip s : lstrip (lstrip s) = lstrip s.
Proof.
  destruct (lstrip s) as [|c t] eqn:Hs; [done|].
  apply lstrip_nonspace. by apply lstrip_head in Hs.
Qed.

Lemma strip_marker_suffix s : strip_marker s `suffix_of` s.
Proof.
  unfold strip_marker. destruct (lstrip s) as [|c t] eqn:Hl; [done|].
  destruct (is_marker c); [|done].
  etrans; [apply lstrip_suffix|]. etrans; [by apply suffix_cons_r|].
  rewrite <- Hl. apply lstrip_suffix.
Qed.

Lemma stored_question_Some m x :
  stored_question m = Some x -> x = strip_marker (strip m).
Proof.
  unfold stored_question. destruct (_ && _); [|done].
  rewrite re_sub_marker. by intros [= <-].
Qed.

Lemma question_runs_shape s : forall cur m,
  Forall (fun c => is_terminator c = false) cur ->
  m ∈ question_runs cur s ->
  exists run, m = run ++ [QUESTION_MARK]
              /\ Forall (fun c => is_terminator c = false) run.
Proof.
  induction s as [|c s IH]; intros cur m Hcur; simpl;
    [by intros ?%elem_of_nil|].
  destruct (c =? QUESTION_MARK) eqn:Hq.
  - apply N.eqb_eq in Hq as ->.
    intros [->|H]%elem_of_cons; [|by apply (IH [])].
    exists (rev cur). split; [done|]. by apply Forall_rev.
  - destruct (is_terminator c) eqn:Ht; [by apply (IH [])|].
    apply IH. by constructor.
Qed.

Lemma sentence_end_not_space c : is_sentence_end c = true -> isspace c = false.
Proof.
  unfold is_sentence_end. rewrite !orb_true_iff, !N.eqb_eq.
  intros [[->| ->]| ->]; reflexivity.
Qed.

(** The shape of a stored question. *)
Lemma stored_question_shape text m x :
  m ∈ question_runs [] text ->
  stored_question m = Some x ->
  (exists run, x = run ++ [QUESTION_MARK]
               /\ Forall (fun c => is_terminator c = false) run)
  /\ strip x = x.
Proof.
  intros Hm Hx. apply stored_question_Some in Hx as ->.
  apply (question_runs_shape _ []) in Hm as (run0 & -> & Hrun0);
    [|constructor].
  rewrite strip_snoc_nonspace by reflexivity.
  assert (Hr1 : Forall (fun c => is_terminator c = false) (lstrip run0)).
  { destruct (lstrip_suffix run0) as [k Hk]. rewrite Hk in Hrun0.
    by apply Forall_app in Hrun0 as [_ ?]. }
  pose proof (lstrip_lstrip run0) as Hidem.
  unfold strip_marker. rewrite lstrip_app_nonspace, Hidem by reflexivity.
  destruct (lstrip run0) as [|c1 t1] eqn:Hl; simpl.
  { split; [by exists []|done]. }
  destruct (is_marker c1).
  - rewrite lstrip_app_nonspace by reflexivity. split.
    + exists (lstrip t1). split; [done|].
      apply Forall_cons in Hr1 as [_ Ht1].
      destruct (lstrip_suffix t1) as [k Hk]. rewrite Hk in Ht1.
      by apply Forall_app in Ht1 as [_ ?].
    + rewrite strip_snoc_nonspace by reflexivity. by rewrite lstrip_lstrip.
  - split; [by exists (c1 :: t1)|].
    rewrite app_comm_cons, strip_snoc_nonspace by reflexivity.
    by rewrite <- Hl, lstrip_lstrip.
Qed.

Lemma decision_patterns_end :
  Forall (ends_in (Chars (u ".!?"))) decision_patterns.
Proof.
  unfold decision_patterns, terminator. cbn [seq].
  repeat constructor.
Qed.

Lemma lit_matches_plain f p c :
  is_upper_ascii p || is_lower_ascii p = false ->
  lit_matches f p c = (c =? p).
Proof. unfold lit_matches. intros ->. by rewrite andb_false_r. Qed.

Lemma sentence_end_matches c :
  cset_matches IGNORECASE_MULTILINE (Chars (u ".!?")) c = is_sentence_end c.
Proof.
  unfold is_sentence_end.
  change (u ".!?") with [46; 33; 63]. cbn [cset_matches existsb].
  rewrite !lit_matches_plain by reflexivity.
  by rewrite orb_false_r, !orb_assoc.
Qed.

Lemma extracted_substring text x :
  x ∈ extract_decisions text \/ x ∈ extract_action_items text
  \/ x ∈ extract_questions text ->
  substring x text.
Proof.
  assert (Hrule : forall patterns,
             x ∈ extract_with patterns text -> substring x text).
  { intros patterns (p & m & _ & Hm & Hx)%elem_of_extract_with.
    apply stored_Some in Hx as [-> _].
    eapply substring_trans; [apply strip_substring|].
    by eapply finditer_substring. }
  intros [H|[H|H]]; [by apply (Hrule decision_patterns)
                    |by apply (Hrule action_patterns)|].
  apply elem_of_extract_questions in H as (m & Hm & Hx).
  apply stored_question_Some in Hx as ->.
  eapply substring_trans; [apply suffix_substring, strip_marker_suffix|].
  eapply substring_trans; [apply strip_substring|].
  rewrite <- finditer_question in Hm. by eapply finditer_substring.
Qed.

(** X1. Every string of an OutcomeSet stands in the text: a decision,
    an action item or an open question is a run of consecutive characters
    of the input. *)
Theorem outcomes_are_substrings text x :
  x ∈ extract_decisions text \/ x ∈ extract_action_items text
  \/ x ∈ extract_questions text ->
  substring x text.
Proof. apply extracted_substring. Qed.

Lemma outcomes_are_substrings_witness :
  substring (u "The team agreed to move forward.") scenario_a.
Proof.
  apply (outcomes_are_substrings scenario_a).
  left. vm_compute. apply list_elem_of_further, list_elem_of_here.
Defined.

(** X2. Every string of an OutcomeSet is non-empty and has no
    whitespace at either end. *)
Theorem outcomes_are_trimmed text x :
  x ∈ extract_decisions text \/ x ∈ extract_action_items text
  \/ x ∈ extract_questions text ->
  x <> [] /\ strip x = x.
Proof.
  assert (Hrule : forall patterns,
             x ∈ extract_with patterns text -> x <> [] /\ strip x = x).
  { intros patterns (p & m & _ & Hm & Hx)%elem_of_extract_with.
    apply stored_Some in Hx as [-> Hne]. split; [done|apply strip_strip]. }
  intros [H|[H|H]]; [by apply (Hrule decision_patterns)
                    |by apply (Hrule action_patterns)|].
  apply elem_of_extract_questions in H as (m & Hm & Hx).
  destruct (stored_question_shape _ _ _ Hm Hx) as [(run & -> & _) Hs].
  split; [by destruct run|done].
Qed.

Lemma outcomes_are_trimmed_witness :
  u "Which database?" <> [] /\ strip (u "Which database?") = u "Which database?".
Proof.
  apply (outcomes_are_trimmed questioned_text).
  right. right. vm_compute. apply list_elem_of_further, list_elem_of_here.
Defined.

Lemma decision_ends text d :
  d ∈ extract_decisions text -> ends_with is_sentence_end d.
Proof.
  intros (p & m & Hp & Hm & Hd)%elem_of_extract_with.
  apply stored_Some in Hd as [-> _].
  pose proof decision_patterns_end as Hend.
  rewrite Forall_forall in Hend.
  destruct (finditer_ends_in _ _ _ _ _ (Hend _ Hp) Hm) as (w & c & -> & Hc).
  rewrite sentence_end_matches in Hc.
  rewrite strip_snoc_nonspace by (by apply sentence_end_not_space).
  by exists (lstrip w), c.
Qed.

(** X3. Every decision ends in [.], [!] or [?]. *)
Theorem decisions_end_a_sentence text d :
  d ∈ extract_decisions text -> ends_with is_sentence_end d.
Proof. apply decision_ends. Qed.

Lemma decisions_end_a_sentence_witness :
  ends_with is_sentence_end (u "We decided to use PostgreSQL.").
Proof.
  apply (decisions_end_a_sentence scenario_a).
  vm_compute. apply list_elem_of_here.
Defined.

Lemma question_ends text q :
  q ∈ extract_questions text ->
  exists run, q = run ++ [QUESTION_MARK]
              /\ Forall (fun c => is_terminator c = false) run.
Proof.
  intros (m & Hm & Hx)%elem_of_extract_questions.
  by destruct (stored_question_shape _ _ _ Hm Hx) as [? _].
Qed.

(** X4. Every open question ends in [?] and holds no [.], [!], [?] or
    newline before it. *)
Theorem questions_end_in_question_mark text q :
  q ∈ extract_questions text ->
  exists run, q = run ++ [QUESTION_MARK]
              /\ Forall (fun c => is_terminator c = false) run.
Proof. apply question_ends. Qed.

Lemma questions_end_in_question_mark_witness :
  exists run, u "Which database?" = run ++ [QUESTION_MARK]
              /\ Forall (fun c => is_terminator c = false) run.
Proof.
  apply (questions_end_in_question_mark questioned_text).
  vm_compute. apply list_elem_of_further, list_elem_of_here.
Defined.

(** X5. A text without [.], [!] and [?] yields no decision and no open
    question, whatever else it says. *)
Theorem no_punctuation_no_decision text :
  Forall (fun c => is_sentence_end c = false) text ->
  extract_decisions text = [] /\ extract_questions text = [].
Proof.
  intros Hfree.
  assert (Hnone : forall x, ends_with is_sentence_end x ->
                    substring x text -> False).
  { intros x (w & c & -> & Hc) (a & b & Ht).
    rewrite Forall_forall in Hfree. rewrite (Hfree c) in Hc; [done|].
    rewrite Ht, !elem_of_app, list_elem_of_singleton. tauto. }
  split.
  - destruct (extract_decisions text) as [|d l] eqn:Hd; [done|].
    exfalso. apply (Hnone d).
    + apply (decision_ends text). rewrite Hd.
      apply list_elem_of_here.
    + apply extracted_substring. left. rewrite Hd.
      apply list_elem_of_here.
  - destruct (extract_questions text) as [|q l] eqn:Hq; [done|].
    exfalso. apply (Hnone q).
    + destruct (question_ends text q) as (run & -> & _).
      { rewrite Hq. apply list_elem_of_here. }
      by exists run, QUESTION_MARK.
    + apply extracted_substring. right. right. rewrite Hq.
      apply list_elem_of_here.
Qed.

Lemma no_punctuation_no_decision_witness :
  extract_decisions undecided_text = []
  /\ extract_questions undecided_text = [].
Proof.
  apply (no_punctuation_no_decision undecided_text).
  vm_compute. repeat constructor.
Defined.

(** X6. The clean-up of a question removes the whitespace in front, one
    character of the marker set and the whitespace behind it, and leaves a
    string that does not start this way as it is. *)
Theorem question_clean_up_removes_one_marker s :
  re_sub_empty NOFLAGS marker_pattern s
  = match lstrip s with
    | c :: t => if is_marker c then lstrip t else s
    | [] => s
    end.
Proof. apply re_sub_marker. Qed.

(** ** What [trim_context] selects *)



Lemma elem_of_sort_by_score l x : x ∈ sort_by_score l <-> x ∈ l.
Proof.
  induction l as [|y l IH]; simpl; [done|].
  rewrite elem_of_insert_by_score, elem_of_cons, IH. tauto.
Qed.


Lemma elem_of_slice_to {A} (l : list A) stop x :
  x ∈ slice_to l stop -> x ∈ l.
Proof.
  destruct (slice_to_take l stop) as [n ->].
  intros (i & Hi & _)%elem_of_take. by eapply list_elem_of_lookup_2.
Qed.

Lemma survivors_scored goal sentences :
  omap (survivor goal) sentences
  = List.map (fun s => (s, calculate_relevance_score s goal))
             (List.filter (survives goal) sentences).
Proof.
  induction sentences as [|s ss IH]; [done|].
  cbn [omap list_omap List.filter]. unfold survives at 1.
  destruct (survivor goal s) as [p|] eqn:Hs; [|exact IH].
  apply survivor_Some in Hs as ->. cbn [List.map]. by rewrite <- IH.
Qed.

Lemma score_without_shared_word chunk goal :
  words goal ∩ words chunk = ∅ -> calculate_relevance_score chunk goal == 0.
Proof.
  unfold calculate_relevance_score. fold (words goal) (words chunk).
  intros ->. rewrite size_empty. by case_bool_decide.
Qed.

Lemma survives_shared_word goal sentence :
  survives goal sentence = true -> words goal ∩ words sentence <> ∅.
Proof.
  unfold survives, survivor. destruct (is_filler_sentence sentence); [done|].
  destruct (Qlt_le_dec 0 _) as [Hpos|]; [|done]. intros _ Hnone.
  apply score_without_shared_word in Hnone. rewrite Hnone in Hpos.
  by apply Qlt_irrefl in Hpos.
Qed.

Lemma nothing_survives_empty_goal sentences : survivors [] sentences = [].
Proof.
  unfold survivors.
  induction (split_into_sentences sentences) as [|s ss IH]; [done|].
  cbn [List.filter]. destruct (survives [] s) eqn:Hs; [|done].
  apply survives_shared_word in Hs. exfalso. apply Hs.
  apply (left_absorb_L ∅ (∩)).
Qed.

Lemma survivors_empty_text goal : survivors goal [] = [].
Proof. reflexivity. Qed.

Lemma slice_to_nil {A} stop : slice_to (@nil A) stop = [].
Proof. unfold slice_to. destruct (0 <=? stop)%Z; by rewrite take_nil. Qed.

(** The pairs a call on strings keeps. *)
Lemma top_chunks_strings arguments t g z :
  get arguments "text" (PStr []) = PStr t ->
  get arguments "goal" (PStr []) = PStr g ->
  py_int (get arguments "max_chunks" (PInt 5)) = Ok z ->
  top_chunks arguments
  = Ok (slice_to (sort_by_score
                    (List.map
                       (fun s => (s, calculate_relevance_score s g))
                       (survivors g t))) z).
Proof.
  intros Ht Hg Hz. unfold top_chunks.
  rewrite Ht, Hg, Hz. cbn [mbind result_bind truthy].
  destruct t as [|c t].
  { cbn [negb orb]. rewrite survivors_empty_text.
    cbn [List.map sort_by_score foldr]. by rewrite slice_to_nil. }
  destruct g as [|d g]; cbn [negb orb].
  { rewrite nothing_survives_empty_goal.
    cbn [List.map sort_by_score foldr]. by rewrite slice_to_nil. }
  rewrite score_sentences_str. cbn [mbind result_bind].
  by rewrite survivors_scored.
Qed.

Lemma trim_context_strings arguments t g z :
  get arguments "text" (PStr []) = PStr t ->
  get arguments "goal" (PStr []) = PStr g ->
  py_int (get arguments "max_chunks" (PInt 5)) = Ok z ->
  trim_context arguments
  = Ok (format_chunks
          (slice_to (sort_by_score
                       (List.map
                          (fun s => (s, calculate_relevance_score s g))
                          (survivors g t))) z)).
Proof.
  intros Ht Hg Hz. unfold trim_context.
  by rewrite (top_chunks_strings _ t g z).
Qed.



(** X8. Every chunk of a result is a sentence of the text that survives
    filtering, and its reason prints the score of that sentence. *)
Theorem chunks_are_surviving_sentences arguments t g r c :
  get arguments "text" (PStr []) = PStr t ->
  get arguments "goal" (PStr []) = PStr g ->
  trim_context arguments = Ok r ->
  c ∈ r ->
  text c ∈ split_into_sentences t
  /\ survives g (text c) = true
  /\ reason c = reason_of (calculate_relevance_score (text c) g).
Proof.
  intros Ht Hg Hr Hc.
  assert (exists z, py_int (get arguments "max_chunks" (PInt 5)) = Ok z)
    as [z Hz].
  { apply trim_context_Ok in Hr as (top & Htop & _).
    apply top_chunks_Ok in Htop as (z & Hz & _). by exists z. }
  rewrite (trim_context_strings _ _ _ _ Ht Hg Hz) in Hr.
  injection Hr as <-. unfold format_chunks in Hc.
  apply list_elem_of_In, in_map_iff in Hc as ([s q] & <- & Hin).
  apply list_elem_of_In, elem_of_slice_to in Hin.
  rewrite elem_of_sort_by_score in Hin.
  apply list_elem_of_In, in_map_iff in Hin as (s' & [= -> <-] & Hs).
  unfold survivors in Hs. apply filter_In in Hs as [Hs Hsurv].
  cbn [text reason]. by rewrite list_elem_of_In.
Qed.

Lemma chunks_are_surviving_sentences_witness :
  u "The deadline is Friday." ∈
    [u "Hi team!"; u "The deadline is Friday."; u "Lunch is at noon.";
     u "Is the deadline fixed?"]
  /\ survives (u "deadline") (u "The deadline is Friday.") = true
  /\ u "High relevance to goal (score: 1.00)"
     = reason_of (calculate_relevance_score (u "The deadline is Friday.")
                    (u "deadline")).
Proof.
  apply (chunks_are_surviving_sentences deadline_call
           (u "Hi team! The deadline is Friday. Lunch is at noon. Is the deadline fixed?")
           (u "deadline")
           [ {| text := u "The deadline is Friday.";
                reason := u "High relevance to goal (score: 1.00)" |} ]
           {| text := u "The deadline is Friday.";
              reason := u "High relevance to goal (score: 1.00)" |}).
  - vm_compute. reflexivity.
  - vm_compute. reflexivity.
  - vm_compute. reflexivity.
  - apply list_elem_of_here.
Defined.






(** ** More on the relevance score *)

Lemma score_nonempty_goal chunk goal :
  words goal <> ∅ ->
  calculate_relevance_score chunk goal
  = (Z.of_nat (size (words goal ∩ words chunk))
     # Pos.of_nat (size (words goal)))%Q
  /\ Z.pos (Pos.of_nat (size (words goal))) = Z.of_nat (size (words goal)).
Proof.
  intros Hg. unfold calculate_relevance_score.
  fold (words goal) (words chunk).
  rewrite bool_decide_eq_false_2 by done. split; [done|].
  assert (size (words goal) <> 0)%nat.
  { intros Hsz%size_empty_iff. by apply Hg, leibniz_equiv. }
  rewrite <- positive_nat_Z, Nat2Pos.id; lia.
Qed.


(** X12. A sentence that holds all the words of another one scores at
    least as high against every goal: more words never lower the
    score. *)
Theorem more_words_never_score_lower chunk1 chunk2 goal :
  words chunk1 ⊆ words chunk2 ->
  (calculate_relevance_score chunk1 goal
   <= calculate_relevance_score chunk2 goal)%Q.
Proof.
  intros Hsub. destruct (decide (words goal = ∅)) as [Hg|Hg].
  - unfold calculate_relevance_score.
    fold (words goal) (words chunk1) (words chunk2).
    rewrite !bool_decide_eq_true_2 by done. apply Qle_refl.
  - destruct (score_nonempty_goal chunk1 goal Hg) as [-> _].
    destruct (score_nonempty_goal chunk2 goal Hg) as [-> _].
    unfold Qle. cbn [Qnum Qden].
    apply Z.mul_le_mono_nonneg_r; [lia|].
    apply Nat2Z.inj_le, subseteq_size.
    apply intersection_mono_l, Hsub.
Qed.

Lemma more_words_never_score_lower_witness :
  (calculate_relevance_score (u "the api") (u "API limits")
   <= calculate_relevance_score (u "limits of the API") (u "API limits"))%Q.
Proof.
  apply more_words_never_score_lower.
  apply (bool_decide_unpack _). vm_compute. exact I.
Defined.

(** X13. A sentence is filler exactly when its lowercased, stripped form
    starts with the characters of a lead-in: a lead-in further inside the
    sentence does not count, case and the whitespace in front do not
    matter. *)
Theorem filler_is_a_prefix_test sentence :
  is_filler_sentence sentence
  = existsb (fun lead =>
               bool_decide (lead `prefix_of` strip (lower sentence)))
            lead_ins.
Proof.
  apply eq_true_iff_eq.
  rewrite is_filler_sentence_prefix, existsb_exists. split.
  - intros (w & Hw & Hp). exists w.
    split; [by apply list_elem_of_In|]. by apply bool_decide_eq_true_2.
  - intros (w & Hw & Hp). exists w.
    split; [by apply list_elem_of_In|]. by apply bool_decide_eq_true_1 in Hp.
Qed.

(** ** The sentence splitter *)

Lemma split_pieces_substring ps : forall cur p,
  p ∈ split_pieces cur ps -> substring p (rev cur ++ pieces_text ps).
Proof.
  induction ps as [|[c|m] ps IH]; intros cur p; cbn [split_pieces].
  - intros ->%list_elem_of_singleton. exists [], []. by rewrite !app_nil_r.
  - intros H%IH. cbn [rev] in H. rewrite <- app_assoc in H. exact H.
  - intros [->|H%IH]%elem_of_cons.
    + by exists [], (pieces_text (Matched m :: ps)).
    + destruct H as (a & b & Hab). cbn [rev app] in Hab.
      exists (rev cur ++ m ++ a), b.
      unfold pieces_text in *. cbn [flat_map]. rewrite Hab.
      by rewrite <- !app_assoc.
Qed.

Lemma re_split_substring f r text p :
  p ∈ re_split f r text -> substring p text.
Proof.
  unfold re_split. intros H%split_pieces_substring.
  by rewrite scan_spells_text in H by lia.
Qed.

Lemma elem_of_split_into_sentences text s :
  s ∈ split_into_sentences text <->
  exists p, p ∈ re_split NOFLAGS sentence_break text
            /\ strip p <> [] /\ s = strip p.
Proof.
  unfold split_into_sentences.
  rewrite list_elem_of_In, in_map_iff. split.
  - intros (p & <- & [Hp Hne]%filter_In). exists p.
    split_and!; [by apply list_elem_of_In| |done].
    by destruct (strip p).
  - intros (p & Hp & Hne & ->). exists p. split; [done|].
    apply filter_In. split; [by apply list_elem_of_In|].
    by destruct (strip p).
Qed.

Lemma sentence_trimmed text s :
  s ∈ split_into_sentences text ->
  s <> [] /\ strip s = s /\ substring s text.
Proof.
  intros (p & Hp & Hne & ->)%elem_of_split_into_sentences.
  split_and!; [done|apply strip_strip|].
  eapply substring_trans; [apply strip_substring|].
  by eapply re_split_substring.
Qed.

(** X14. Every sentence the splitter returns is non-empty, has no
    whitespace at either end, and is a run of consecutive characters of the
    text. *)
Theorem sentences_are_trimmed_substrings text s :
  s ∈ split_into_sentences text ->
  s <> [] /\ strip s = s /\ substring s text.
Proof. apply sentence_trimmed. Qed.

Lemma sentences_are_trimmed_substrings_witness :
  u "We need JSON support." <> []
  /\ strip (u "We need JSON support.") = u "We need JSON support."
  /\ substring (u "We need JSON support.")
       (u "Hi there! The deadline is March 15th. We need JSON support.").
Proof.
  apply sentences_are_trimmed_substrings.
  vm_compute. do 2 apply list_elem_of_further. apply list_elem_of_here.
Defined.

Lemma lstrip_split s :
  exists w, s = w ++ lstrip s /\ Forall (fun c => isspace c = true) w.
Proof.
  induction s as [|c s (w & Hw & Hall)]; [by exists []|]. simpl.
  destruct (isspace c) eqn:Hc; [|by exists []].
  exists (c :: w). split; [by rewrite <- app_comm_cons, <- Hw|].
  by constructor.
Qed.

Lemma space_not_sentence_end c : isspace c = true -> is_sentence_end c = false.
Proof.
  intros Hc. destruct (is_sentence_end c) eqn:He; [|done].
  apply sentence_end_not_space in He. congruence.
Qed.

Lemma sentence_end_behind c :
  cset_matches NOFLAGS (Chars (u ".!?")) c = is_sentence_end c.
Proof.
  unfold is_sentence_end.
  change (u ".!?") with [46; 33; 63]. cbn [cset_matches existsb].
  rewrite !lit_matches_plain by reflexivity.
  by rewrite orb_false_r, !orb_assoc.
Qed.

(** What the break pattern matches: behind a sentence end, the whole run
    of whitespace. *)
Lemma break_match_at prev s :
  match_at NOFLAGS sentence_break false prev s
  = match prev, s with
    | Some p, c :: s' =>
        if is_sentence_end p && isspace c then Some (lstrip s') else None
    | _, _ => None
    end.
Proof.
  unfold match_at, sentence_break. cbn [rmatch andb].
  destruct prev as [p|]; [|done].
  rewrite sentence_end_behind.
  destruct (is_sentence_end p); [|by destruct s].
  destruct s as [|c s]; [done|]. unfold ws at 1. cbn [rmatch cset_matches].
  destruct (isspace c); [|done]. cbn [andb].
  rewrite star_ws_greedy; [done|done|done|by left].
Qed.

(** Every piece but the last one ends with the sentence end that the
    break was found behind. *)
Lemma break_pieces s : forall prev cur n,
  (n <= length s)%nat ->
  (n = 0%nat -> forall p, prev = Some p -> is_sentence_end p = true ->
                exists cur', cur = p :: cur') ->
  (n <> 0%nat -> Forall (fun c => isspace c = true) (take n s)) ->
  exists init last,
    split_pieces cur (scan NOFLAGS sentence_break prev s n) = init ++ [last]
    /\ Forall (ends_with is_sentence_end) init.
Proof.
  induction s as [|c s IH]; intros prev cur n Hn Hprev Hskip.
  - destruct n; [|simpl in Hn; lia]. cbn [scan].
    rewrite break_match_at. destruct prev; by exists [], (rev cur).
  - destruct n as [|n].
    + cbn [scan]. rewrite break_match_at.
      destruct prev as [p|].
      * destruct (is_sentence_end p && isspace c) eqn:Hbreak.
        -- apply andb_true_iff in Hbreak as [Hp Hc].
           destruct (Hprev eq_refl p eq_refl Hp) as [cur' ->].
           destruct (lstrip_split s) as (w & Hw & Hall).
           pose proof (f_equal length Hw) as Hls.
           rewrite length_app in Hls.
           assert (Hlen : (length (c :: s) - length (lstrip s)
                           = S (length w))%nat) by (simpl; lia).
           assert (Htake : take (length w) s = w).
           { rewrite Hw. apply take_app_length. }
           rewrite Hlen. cbn [split_pieces].
           destruct (IH (Some c) [] (length w)) as (init & last & -> & Hi).
           ++ lia.
           ++ intros _ p' [= <-] Hp'.
              apply space_not_sentence_end in Hc. congruence.
           ++ intros _. by rewrite Htake.
           ++ exists (rev (p :: cur') :: init), last. split; [done|].
              constructor; [|done]. by exists (rev cur'), p.
        -- cbn [split_pieces].
           destruct (IH (Some c) (c :: cur) 0%nat) as (init & last & H & Hi);
             [lia| |done|by exists init, last].
           intros _ p' [= <-] _. by exists cur.
      * cbn [split_pieces].
        destruct (IH (Some c) (c :: cur) 0%nat) as (init & last & H & Hi);
          [lia| |done|by exists init, last].
        intros _ p' [= <-] _. by exists cur.
    + cbn [scan]. specialize (Hskip ltac:(done)).
      cbn [take] in Hskip. apply Forall_cons in Hskip as [Hc Hrest].
      apply IH; [simpl in Hn; lia| |done].
      intros _ p' [= <-] Hp'.
      apply space_not_sentence_end in Hc. congruence.
Qed.

Lemma sentences_end text :
  exists init tail,
    split_into_sentences text = init ++ tail
    /\ Forall (ends_with is_sentence_end) init
    /\ (length tail <= 1)%nat.
Proof.
  unfold split_into_sentences, re_split.
  destruct (break_pieces text None [] 0%nat) as (init & last & -> & Hi);
    [lia|done|done|].
  rewrite List.filter_app, List.map_app.
  eexists _, _. split_and!; [done| |].
  - apply Forall_forall. intros x Hx.
    apply list_elem_of_In, in_map_iff in Hx as (p & <- & [Hp _]%filter_In).
    rewrite Forall_forall in Hi.
    destruct (Hi p) as (w & c & -> & Hc); [by apply list_elem_of_In|].
    rewrite strip_snoc_nonspace by (by apply sentence_end_not_space).
    by exists (lstrip w), c.
  - cbn [List.filter]. destruct (nonempty (strip last)); simpl; lia.
Qed.

(** X15. Every sentence the splitter returns, except possibly the last
    one, ends in [.], [!] or [?]. *)
Theorem sentences_end_in_punctuation text :
  exists init tail,
    split_into_sentences text = init ++ tail
    /\ Forall (ends_with is_sentence_end) init
    /\ (length tail <= 1)%nat.
Proof. apply sentences_end. Qed.

(** ** The tool interface and the tools *)

Lemma call_tool_trim_context arguments :
  call_tool "trim_context" arguments
  = match trim_context arguments with
    | Ok l => (Ok (Chunks l), [])
    | Raise e =>
        (Raise e, [ {| failed_tool := "trim_context"; failure := e |} ])
    end.
Proof.
  unfold call_tool. rewrite decide_False by done.
  rewrite decide_True by done. by destruct (trim_context arguments).
Qed.

Lemma trim_context_default arguments :
  arguments !! "max_chunks" = None ->
  trim_context (<["max_chunks" := PInt 5]> arguments)
  = trim_context arguments.
Proof.
  intros Hnone. unfold trim_context, top_chunks, get.
  rewrite lookup_insert_eq, !lookup_insert_ne, Hnone by done. done.
Qed.

(** X16. The tools [call_tool] serves are the tools [list_tools]
    lists: a call without arguments returns for a listed name and for no
    other, and under any other name every call raises ValueError and logs
    it. *)
Theorem tools_served_are_tools_listed name :
  is_ok (call_tool name ∅).1
  = bool_decide (name ∈ tool_name <$> list_tools)
  /\ forall arguments,
       name ∈ tool_name <$> list_tools
       \/ call_tool name arguments
          = (Raise ValueError,
             [ {| failed_tool := name; failure := ValueError |} ]).
Proof.
  change (tool_name <$> list_tools)
    with ["extract_outcomes"%string; "trim_context"%string].
  destruct (decide (name = "extract_outcomes"%string)) as [Heq|Hne1].
  { subst name. split; [vm_compute; reflexivity|].
    intros arguments. left. apply list_elem_of_here. }
  destruct (decide (name = "trim_context"%string)) as [Heq|Hne2].
  { subst name. split; [vm_compute; reflexivity|].
    intros arguments. left. apply list_elem_of_further, list_elem_of_here. }
  assert (Hcall : forall arguments,
            call_tool name arguments
            = (Raise ValueError,
               [ {| failed_tool := name; failure := ValueError |} ])).
  { intros arguments. unfold call_tool. by rewrite !decide_False by done. }
  split; [|intros arguments; right; apply Hcall].
  rewrite Hcall. symmetry. apply bool_decide_eq_false_2.
  rewrite !elem_of_cons, elem_of_nil. tauto.
Qed.

(** X17. The default a tool declares for a property is the value the
    code uses when the key is absent: with the declared default put in
    for the missing key, the call does the same. *)
Theorem declared_default_is_used tool p d arguments :
  tool ∈ list_tools ->
  p ∈ tool_properties tool ->
  prop_default p = Some d ->
  arguments !! prop_name p = None ->
  call_tool (tool_name tool) (<[prop_name p := d]> arguments)
  = call_tool (tool_name tool) arguments.
Proof.
  unfold list_tools. rewrite !elem_of_cons, elem_of_nil.
  intros [->|[->|[]]]; cbn [tool_properties tool_name];
    rewrite !elem_of_cons, elem_of_nil;
    intros Hp; repeat destruct Hp as [->|Hp]; try done;
    cbn [prop_default prop_name]; try done.
  intros [= <-] Hnone.
  by rewrite !call_tool_trim_context, trim_context_default.
Qed.

Lemma declared_default_is_used_witness :
  call_tool "trim_context" (<["max_chunks" := PInt 5]> two_key_call)
  = call_tool "trim_context" two_key_call.
Proof.
  apply (declared_default_is_used
           {| tool_name := "trim_context";
              tool_description :=
                "Reduce long text to the minimum context required to accomplish a goal. Removes filler and preserves essential facts, constraints, and decisions.";
              tool_properties :=
                [ {| prop_name := "text"; prop_type := JsonString;
                     prop_description := "The text to reduce";
                     prop_default := None |};
                  {| prop_name := "goal"; prop_type := JsonString;
                     prop_description :=
                       "The goal that the context should support";
                     prop_default := None |};
                  {| prop_name := "max_chunks"; prop_type := JsonNumber;
                     prop_description :=
                       "Maximum number of chunks to return (default: 5)";
                     prop_default := Some (PInt 5) |} ];
              tool_required := ["text"%string; "goal"%string] |}
           {| prop_name := "max_chunks"; prop_type := JsonNumber;
              prop_description :=
                "Maximum number of chunks to return (default: 5)";
              prop_default := Some (PInt 5) |}).
  - apply list_elem_of_further, list_elem_of_here.
  - do 2 apply list_elem_of_further. apply list_elem_of_here.
  - reflexivity.
  - vm_compute. reflexivity.
Defined.
